(** * ytfd: the subscription store, the listener pool and the response framing

    A shallow embedding of [ytfd.go].  The daemon keeps a map from normalised
    channel names to channel records ([localDb]), a buffered Go channel of
    open listeners ([listenersChan]), and answers every request with one
    framed message ([send]).

    Go values are modelled as follows.
    - [string] is Rocq's [string] (a sequence of 8-bit characters, as a Go
      string is a sequence of bytes), [[]byte] is [list byte].
    - [int] is a 64-bit two's complement integer, written as a [Z] with the
      wrap-around spelled out ([wrap64]).
    - [map[string]*channel] is a [gmap string channel].  The daemon only ever
      stores records that [fetch] has just allocated, so no two keys share a
      record and the records are kept by value.
    - [error] results are [option error] ([None] is Go's [nil]); a pair
      [(value, error)] is a [result].
    - The process-wide variables [feed] and [*flagNotify], together with the
      trace of calls made to the outside, form a [world] that every
      operation threads through.
    - Library and external code the file calls but does not contain
      ([strings.ToLower], [strconv.Quote] behind [%q], the [dunstify]
      command, the HTTP resolver and fetcher) is the interface [External]. *)

From Stdlib Require Import ZArith Lia.
From Stdlib Require Import Strings.String Strings.Ascii Strings.Byte.
From stdpp Require Import gmap strings list fin_maps.

Local Open Scope string_scope.
Local Open Scope nat_scope.
Local Open Scope list_scope.

(** ** Data model *)

Record video := {
  Title : string;
  VideoId : string;
  Description : string
}.

Record channel := {
  Name : string;
  URL : string;
  Videos : list video
}.

(** [type state byte] with its two constants. *)
Definition state : Type := byte.
Definition failure : state := x00.
Definition success : state := x01.

Definition listenersSize : nat := 8.
Definition maxFeedSize : nat := 7.

(** The errors the modelled functions build with [fmt.Errorf], and the
    errors that come back from outside (a failed read, a failed command, a
    failed HTTP call) with their text. *)
Inductive error :=
| EmptyFeed
| NotSubscribed (c : string)
| Outside (msg : string).

Definition LF : string := String "010"%char EmptyString.

(** [err.Error()] *)
Definition Error (e : error) : string :=
  match e with
  | EmptyFeed => "channel with no videos"
  | NotSubscribed c => "not subscribed to channel '" +:+ c +:+ "'"
  | Outside msg => msg
  end.

Inductive result (A : Type) :=
| Ok (a : A)
| Err (e : error).
Arguments Ok {A} a.
Arguments Err {A} e.

(** What the daemon does to the outside, in the order it does it. *)
Inductive event :=
| EvNotify (chName : string) (vid : video)
| EvGetChannelURL (name : string)
| EvFetch (chName chURL : string)
| EvSend (st : state) (resp : string).

Record world := {
  feed : gmap string channel;
  flagNotify : bool;
  events : list event
}.

(** Code that is called but lives outside the file.  The three outside calls
    may answer differently each time, so they see the trace so far. *)
Class External := {
  ToLower : string → string;
  Quote : string → string;
  dunstify : list event → list string → option error;
  resolveURL : list event → string → result string;
  fetchFeed : list event → string → string → result channel
}.

(** [strings.ReplaceAll(s, old, "")] for a one-byte [old]. *)
Fixpoint ReplaceAll1 (old : ascii) (s : string) : string :=
  match s with
  | EmptyString => EmptyString
  | String a rest =>
      if Ascii.eqb a old then ReplaceAll1 old rest
      else String a (ReplaceAll1 old rest)
  end.

Definition logEvent (e : event) (w : world) : world :=
  {| feed := feed w; flagNotify := flagNotify w; events := events w ++ [e] |}.

Definition setVideos (ch : channel) (vs : list video) : channel :=
  {| Name := Name ch; URL := URL ch; Videos := vs |}.

Definition setFeed (w : world) (m : gmap string channel) : world :=
  {| feed := m; flagNotify := flagNotify w; events := events w |}.

(** [fmt.Sprintf("New video from %v:\n%v", chName, vid.Title)] *)
Definition noticeText (chName : string) (vid : video) : string :=
  "New video from " +:+ chName +:+ ":" +:+ LF +:+ Title vid.

(** The arguments [notify] gives to [exec.Command("dunstify", args...)]. *)
Definition notifyArgs (notice : string) : list string :=
  ["-a"; "notifyVid"; "-t"; "10000"; "-u"; "low";
   "-h"; "string:x-dunst-stack-tag:ytfd"; notice].

(** [for j, vid := range ch.Videos { if vid.VideoId == latest.VideoId { i = j; ...; break } }]:
    the index at which the loop breaks, counting from [j]. *)
Fixpoint scan (latestId : string) (vs : list video) (j : nat) : option nat :=
  match vs with
  | [] => None
  | vid :: rest =>
      if String.eqb (VideoId vid) latestId then Some j
      else scan latestId rest (S j)
  end.

Section Daemon.
Context `{!External}.

Definition normalizeName (c : string) : string :=
  let c := ToLower c in
  let c := ReplaceAll1 " "%char c in
  c.

(** [notify] builds the notice and runs [dunstify] ([cmd.Run()]); the error
    of a failed run clears [*flagNotify] and is returned. *)
Definition notify (chName : string) (vid : video) (w : world)
  : option error * world :=
  let notice := noticeText chName vid in
  let args := notifyArgs notice in
  let err := dunstify (events w) args in
  let w := logEvent (EvNotify chName vid) w in
  match err with
  | Some e =>
      (Some e, {| feed := feed w; flagNotify := false; events := events w |})
  | None => (None, w)
  end.

(** [for k := 0; k < i && err == nil; k++ { err = notify(c, ch.Videos[k]) }]
    with [n] iterations left before [k] reaches [i].  The index [k] stays
    below [len(ch.Videos)] because [i] is an index of [ch.Videos]. *)
Fixpoint notifyLoop (n k : nat) (c : string) (vs : list video) (w : world)
  : world :=
  match n with
  | O => w
  | S n' =>
      match vs !! k with
      | Some vid =>
          match notify c vid w with
          | (None, w') => notifyLoop n' (S k) c vs w'
          | (Some _, w') => w'
          end
      | None => w
      end
  end.

(** Whether the run of [dunstify] for [vs[k]] succeeds when the loop, started
    on the trace [evs], has already notified [vs[0..k)]. *)
Definition runOk (evs : list event) (c : string) (vs : list video) (k : nat) : bool :=
  match vs !! k with
  | Some vid =>
      match dunstify (evs ++ (EvNotify c <$> take k vs))
                     (notifyArgs (noticeText c vid)) with
      | None => true
      | Some _ => false
      end
  | None => true
  end.

End Daemon.

(** ** The subscription store: methods of [*localDb] on the global [feed] *)

Module localDb.
Section Methods.
Context `{!External}.

(** The record-insertion tail of [add], shared by the absent key and by a
    present record without videos. *)
Definition store (c : string) (ch : channel) (w : world) : option error * world :=
  let ch := setVideos ch (take (Nat.min maxFeedSize (length (Videos ch))) (Videos ch)) in
  (None, setFeed w (<[c := ch]> (feed w))).

Definition add (c : string) (ch : channel) (w : world) : option error * world :=
  if Nat.eqb (length (Videos ch)) 0 then (Some EmptyFeed, w)
  else
    let c := normalizeName c in
    match feed w !! c with
    | Some ldbCh =>
        match Videos ldbCh with
        | latest :: _ =>
            let found := scan (VideoId latest) (Videos ch) 0 in
            let i := default 0 found in
            let w :=
              match found with
              | Some _ =>
                  if flagNotify w && (0 <? i) then notifyLoop i 0 c (Videos ch) w
                  else w
              | None => w
              end in
            let merged :=
              take i (Videos ch)
              ++ take (Nat.min maxFeedSize (length (Videos ldbCh))) (Videos ldbCh) in
            (None, setFeed w (<[c := setVideos ldbCh merged]> (feed w)))
        | [] => store c ch w
        end
    | None => store c ch w
    end.

Definition get (c : string) (w : world) : result channel :=
  let c := normalizeName c in
  match feed w !! c with
  | Some ch => Ok ch
  | None => Err (NotSubscribed c)
  end.

Definition rm (c : string) (w : world) : option error * world :=
  let c := normalizeName c in
  (None, setFeed w (delete c (feed w))).

(** Go ranges over the map in no fixed order; [map_to_list] fixes one. *)
Definition subs (w : world) : result (list channel) :=
  Ok (snd <$> map_to_list (feed w)).

End Methods.
End localDb.

(** ** The listener pool: [listenersChan], a buffered Go channel

    [make(chan net.Listener, listenersSize)] is a queue of at most
    [listenersSize] listeners and a closed mark.  [closedL] records every
    [l.Close()] in order. *)

Record listener := { Addr : string }.

Record pool := {
  lc : list listener;
  lcClosed : bool;
  closedL : list listener
}.

(** How a call ends: it returns, it ends the process ([os.Exit]), it waits
    for ever on the channel, or it panics. *)
Inductive outcome :=
| Returns (p : pool)
| Exits (code : Z) (p : pool)
| Blocks (p : pool)
| Panics (p : pool).

Inductive received :=
| Got (l : listener) (p : pool)
| GotNil (p : pool)
| Waits (p : pool).

(** [l := <-lc] with no other goroutine sending: the oldest queued listener;
    on an empty channel the zero value if the channel is closed, and no
    return otherwise. *)
Definition chanRecv (p : pool) : received :=
  match lc p with
  | l :: rest => Got l {| lc := rest; lcClosed := lcClosed p; closedL := closedL p |}
  | [] => if lcClosed p then GotNil p else Waits p
  end.

(** [lc <- l] with no other goroutine receiving. *)
Definition chanSend (l : listener) (p : pool) : outcome :=
  if lcClosed p then Panics p
  else if length (lc p) <? listenersSize
       then Returns {| lc := lc p ++ [l]; lcClosed := lcClosed p; closedL := closedL p |}
       else Blocks p.

(** [close(lc)] *)
Definition chanClose (p : pool) : outcome :=
  if lcClosed p then Panics p
  else Returns {| lc := lc p; lcClosed := true; closedL := closedL p |}.

(** [l.Close()] *)
Definition Close (l : listener) (p : pool) : pool :=
  {| lc := lc p; lcClosed := lcClosed p; closedL := closedL p ++ [l] |}.

Module listenersChan.

(** [for i := 0; i < listenersSize; i++ { l := <-lc; ...; l.Close() }] with
    [n] iterations left.  A nil listener makes [l.Addr()] panic. *)
Fixpoint closeLoop (n : nat) (p : pool) : outcome :=
  match n with
  | O => Returns p
  | S n' =>
      match chanRecv p with
      | Got l p' => closeLoop n' (Close l p')
      | GotNil p' => Panics p'
      | Waits p' => Blocks p'
      end
  end.

Definition close (p : pool) : outcome :=
  if length (lc p) =? 0 then Returns p
  else
    match closeLoop listenersSize p with
    | Returns p' => chanClose p'
    | o => o
    end.

Definition add (l : listener) (p : pool) : outcome :=
  if listenersSize <? length (lc p) + 1 then
    match close (Close l p) with
    | Returns p' => Exits 1 p'
    | o => o
    end
  else chanSend l p.

End listenersChan.

(** ** The response framing: [send] *)

(** A Go [int] on a 64-bit platform. *)
Definition wrap64 (z : Z) : Z := ((z + 2 ^ 63) mod 2 ^ 64 - 2 ^ 63)%Z.

(** [for res := 2; res < len(resp); res *= 2 { pow++ }], at most [fuel]
    tests of the condition; [None] when the loop is still running. *)
Fixpoint powLoop (fuel : nat) (res pow len : Z) : option Z :=
  match fuel with
  | O => None
  | S fuel' =>
      if (res <? len)%Z
      then powLoop fuel' (wrap64 (res * 2)) (wrap64 (pow + 1)) len
      else Some pow
  end.

(** The conversion [byte(n)] keeps the low eight bits. *)
Definition byteOfInt (n : Z) : byte :=
  default x00 (Byte.of_N (Z.to_N (n mod 256))).

(** The message [send] hands to [c.Write]. *)
Definition send (st : state) (resp : string) : option (list byte) :=
  match powLoop 128 2 1 (Z.of_nat (String.length resp)) with
  | Some pow =>
      Some ([st] ++ [byteOfInt (pow ÷ 10)] ++ [byteOfInt (Z.rem pow 10)]
            ++ list_byte_of_string resp)
  | None => None
  end.

(** Modelled from the spec: the reader of a response is not in [ytfd.go];
    the status is byte 0 and the payload is every byte after the two power
    bytes. *)
Definition decode (msg : list byte) : option (state * string) :=
  match msg with
  | st :: _ :: _ :: payload => Some (st, string_of_list_byte payload)
  | _ => None
  end.

(** ** Rendering of records ([String] methods) *)

Definition TAB : string := String "009"%char EmptyString.
Definition watchURLStr : string := "https://www.youtube.com/watch?v=".

Definition video_String (v : video) : string :=
  Title v +:+ LF +:+ TAB +:+ watchURLStr +:+ VideoId v +:+ LF.

(** [s[:len(s)-1]] *)
Definition dropLastByte (s : string) : string :=
  String.substring 0 (String.length s - 1) s.

Definition videos_String (vs : list video) : string :=
  let videosStr := foldl (λ acc v, acc +:+ video_String v) "" vs in
  if 0 <? String.length videosStr then dropLastByte videosStr else videosStr.

Definition channel_String (c : channel) : string :=
  Name c +:+ LF +:+ TAB +:+ URL c +:+ LF +:+ LF +:+ videos_String (Videos c).

(** ** The connection tasks

    Each handler accepts connections for ever and starts one task (a
    goroutine) per connection.  A task is modelled from the result of its
    single [c.Read]: the bytes read, or the read error.  Calls of [send] are
    recorded as [EvSend]; what [send] then writes is [send] above.  Of
    [getChannelURL] and [fetch] only the call and its result are kept.

    The tasks run concurrently.  The store lock is held inside [feed.get],
    [feed.add], [feed.rm] and [feed.subs] only, and the calls to the outside
    hold no lock, so a task is cut into regions of at most one store call or
    one outside call each; between two regions of a task any other task may
    run ([run] below).  A [send] writes to the task's own connection and
    touches nothing shared, so it is kept in the region of the call before
    it. *)

Section Tasks.
Context `{!External}.

Definition getChannelURL (bname : string) (w : world) : result string * world :=
  (resolveURL (events w) bname, logEvent (EvGetChannelURL bname) w).

Definition fetch (chName chURL : string) (w : world) : result channel * world :=
  (fetchFeed (events w) chName chURL, logEvent (EvFetch chName chURL) w).

Definition handleGet (rd : result string) (w : world) : world :=
  match rd with
  | Err err => logEvent (EvSend failure (Error err)) w
  | Ok channelName =>
      match localDb.get channelName w with
      | Err err => logEvent (EvSend failure (Error err)) w
      | Ok ch => logEvent (EvSend success (channel_String ch)) w
      end
  end.

Definition handleRm (rd : result string) (w : world) : world :=
  match rd with
  | Err err => logEvent (EvSend failure (Error err)) w
  | Ok channelName =>
      match localDb.rm channelName w with
      | (Some err, w) => logEvent (EvSend failure (Error err)) w
      | (None, w) =>
          logEvent (EvSend success ("unsubscribed from channel " +:+ Quote channelName)) w
      end
  end.

(** A run of successful [add]s only: [None] as soon as one fails. *)
Fixpoint addAll (reqs : list (string * channel)) (w : world) : option world :=
  match reqs with
  | [] => Some w
  | (c, ch) :: rest =>
      match localDb.add c ch w with
      | (None, w') => addAll rest w'
      | (Some _, _) => None
      end
  end.

End Tasks.

(** ** A concrete outside, for running the model

    [strings.ToLower] on ASCII input maps 'A'..'Z' to 'a'..'z' and keeps
    every other byte; [strconv.Quote] on printable ASCII without quotes or
    backslashes wraps the text in double quotes.  [runs] tells which runs of
    [dunstify] succeed, by the number of notifications issued before. *)

Definition lowerByte (a : ascii) : ascii :=
  let n := nat_of_ascii a in
  if (65 <=? n) && (n <=? 90) then ascii_of_nat (n + 32) else a.

Fixpoint ToLowerASCII (s : string) : string :=
  match s with
  | EmptyString => EmptyString
  | String a rest => String (lowerByte a) (ToLowerASCII rest)
  end.

Definition DQ : string := String "034"%char EmptyString.

Definition isNotify (e : event) : bool :=
  match e with EvNotify _ _ => true | _ => false end.

Definition outside (runs : nat → bool) : External := {|
  ToLower := ToLowerASCII;
  Quote := λ s, DQ +:+ s +:+ DQ;
  dunstify := λ evs _,
    if runs (length (filter isNotify evs)) then None
    else Some (Outside "exit status 1");
  resolveURL := λ _ name, Err (Outside ("channel '" +:+ name +:+ "' not found"));
  fetchFeed := λ _ _ _, Err (Outside "unreachable")
|}.

(** The claim's own reading of the key: lower-cased, all whitespace removed. *)
Definition isSpaceByte (a : ascii) : bool :=
  let n := nat_of_ascii a in
  (n =? 32) || ((9 <=? n) && (n <=? 13)).

Fixpoint stripWhitespace (s : string) : string :=
  match s with
  | EmptyString => EmptyString
  | String a rest =>
      if isSpaceByte a then stripWhitespace rest
      else String a (stripWhitespace rest)
  end.

Definition normalizeAllWhitespace `{!External} (c : string) : string :=
  stripWhitespace (ToLower c).

(** The empty store at start-up, notifications on ([-notify] defaults to true). *)
Definition startWorld : world :=
  {| feed := ∅; flagNotify := true; events := [] |}.

Definition mkVideo (id : string) : video :=
  {| Title := "title " +:+ id; VideoId := id; Description := "" |}.

Definition mkChannel (name : string) (ids : list string) : channel :=
  {| Name := name; URL := "https://www.youtube.com/channel/" +:+ name;
     Videos := mkVideo <$> ids |}.

(** An outside where every run of [dunstify] succeeds, and one where only
    the first run does. *)
Definition quiet : External := outside (λ _, true).
Definition failsSecond : External := outside (λ n, n <? 1).

(** A world with one subscription, "Chan", holding the videos [ids]. *)
Definition subscribed (ids : list string) : world :=
  {| feed := {["chan" := mkChannel "Chan" ids]}; flagNotify := true; events := [] |}.

Definition mkPool (addrs : list string) : pool :=
  {| lc := Build_listener <$> addrs; lcClosed := false; closedL := [] |}.

(** ** The record [fetch] builds

    What [fetch] does once [xml.Unmarshal] has filled [fetchedChannel]: it
    sets the name, derives the channel address from the feed address and
    cuts the videos to [maxFeedSize]. *)

Definition channelURLBase : string := "https://www.youtube.com/@".
Definition channelURLByIDBase : string := "https://www.youtube.com/channel/".
Definition feedURLBase : string :=
  "https://www.youtube.com/feeds/videos.xml?channel_id=".

(** [strings.Split(s, sep)] for a one-byte [sep]: the pieces between the
    separators, one piece when there is none. *)
Fixpoint Split1 (sep : ascii) (s : string) : list string :=
  match s with
  | EmptyString => [EmptyString]
  | String a rest =>
      if Ascii.eqb a sep then EmptyString :: Split1 sep rest
      else
        match Split1 sep rest with
        | piece :: pieces => String a piece :: pieces
        | [] => [String a EmptyString]
        end
  end.

(** Lines 316 to 331 of [fetch]; [None] is the run-time panic of
    [channelURLElems[1]] on a slice of length 1. *)
Definition fetchRecord (chName chURL : string) (fetchedChannel : channel)
  : option channel :=
  let channelURLElems := Split1 "="%char chURL in
  let channelURL :=
    if 0 <? length channelURLElems then
      match channelURLElems !! 1 with
      | Some channelID => Some (channelURLByIDBase +:+ channelID)
      | None => None
      end
    else Some (channelURLBase +:+ chName) in
  match channelURL with
  | Some channelURL =>
      Some {| Name := chName; URL := channelURL;
              Videos :=
                if maxFeedSize <? length (Videos fetchedChannel)
                then take maxFeedSize (Videos fetchedChannel)
                else Videos fetchedChannel |}
  | None => None
  end.

(** The outside's fetcher answers as [fetch] is written: a record it
    returns is one [fetchRecord] builds from some parsed document. *)
Definition fetchAsWritten `{!External} : Prop :=
  ∀ evs chName chURL ch,
    fetchFeed evs chName chURL = Ok ch →
    ∃ parsed, fetchRecord chName chURL parsed = Some ch.

Definition hasByte (a : ascii) (s : string) : bool :=
  existsb (Ascii.eqb a) (list_ascii_of_string s).

(** ** Start-up and shutdown of the listener pool *)

(** [serve], as far as the pool goes: [bound] is the listener [net.Listen]
    returned, [None] when [os.RemoveAll] or [net.Listen] failed and [serve]
    returned before it registered anything. *)
Definition serve (bound : option listener) (p : pool) : outcome :=
  match bound with
  | None => Returns p
  | Some listener => listenersChan.add listener p
  end.

(** [for _, endpoint := range endpoints { endpoint.serve() }] *)
Fixpoint serveAll (bounds : list (option listener)) (p : pool) : outcome :=
  match bounds with
  | [] => Returns p
  | bound :: rest =>
      match serve bound p with
      | Returns p' => serveAll rest p'
      | o => o
      end
  end.

(** The pool [main] starts from. *)
Definition emptyPool : pool := {| lc := []; lcClosed := false; closedL := [] |}.

(** ** The other connection tasks *)

(** [strings.Join(elems, sep)] *)
Fixpoint Join (elems : list string) (sep : string) : string :=
  match elems with
  | [] => ""
  | [e] => e
  | e :: rest => e +:+ sep +:+ Join rest sep
  end.

Section MoreTasks.
Context `{!External}.

Definition handleHealth (rd : result string) (w : world) : world :=
  match rd with
  | Err err => logEvent (EvSend failure (Error err)) w
  | Ok buf => logEvent (EvSend success (Quote buf)) w
  end.

Definition handleSubs (w : world) : world :=
  match localDb.subs w with
  | Err err => logEvent (EvSend failure (Error err)) w
  | Ok chs =>
      let channelNames := Name <$> chs in
      let response := Join channelNames LF in
      let response :=
        if String.length response =? 0 then "no subscriptions" else response in
      logEvent (EvSend success response) w
  end.

(** Where a task of [handleFetch] stands: before [c.Read] and
    [getChannelURL], or before [fetch]. *)
Inductive fetchAt :=
| FetchRead (rd : result string)
| FetchFetch (channelName channelURL : string).

(** One region of a [handleFetch] task; [None] when the task has ended. *)
Definition handleFetch (at_ : fetchAt) (w : world) : world * option fetchAt :=
  match at_ with
  | FetchRead rd =>
      match rd with
      | Err err => (logEvent (EvSend failure (Error err)) w, None)
      | Ok channelName =>
          match getChannelURL channelName w with
          | (Err err, w) => (logEvent (EvSend failure (Error err)) w, None)
          | (Ok channelURL, w) => (w, Some (FetchFetch channelName channelURL))
          end
      end
  | FetchFetch channelName channelURL =>
      match fetch channelName channelURL w with
      | (Err err, w) => (logEvent (EvSend failure (Error err)) w, None)
      | (Ok channelFetched, w) =>
          (logEvent (EvSend success (channel_String channelFetched)) w, None)
      end
  end.

(** Where a task of [handleAdd] stands: before [c.Read] and [feed.get],
    before [getChannelURL], before [fetch], or before [feed.add]. *)
Inductive addAt :=
| AddRead (rd : result string)
| AddResolve (channelName : string)
| AddFetch (channelName channelURL : string)
| AddStore (channelName : string) (channelFetched : channel).

(** One region of a [handleAdd] task.  [feed.get] has released the lock
    when the task goes on to [getChannelURL], and [feed.add] takes it again
    two outside calls later. *)
Definition handleAdd (at_ : addAt) (w : world) : world * option addAt :=
  match at_ with
  | AddRead rd =>
      match rd with
      | Err err => (logEvent (EvSend failure (Error err)) w, None)
      | Ok channelName =>
          match localDb.get channelName w with
          | Ok _ =>
              (logEvent (EvSend failure
                           ("already subscribed to channel " +:+ Quote channelName)) w,
               None)
          | Err _ => (w, Some (AddResolve channelName))
          end
      end
  | AddResolve channelName =>
      match getChannelURL channelName w with
      | (Err err, w) => (logEvent (EvSend failure (Error err)) w, None)
      | (Ok channelURL, w) => (w, Some (AddFetch channelName channelURL))
      end
  | AddFetch channelName channelURL =>
      match fetch channelName channelURL w with
      | (Err err, w) => (logEvent (EvSend failure (Error err)) w, None)
      | (Ok channelFetched, w) => (w, Some (AddStore channelName channelFetched))
      end
  | AddStore channelName channelFetched =>
      match localDb.add channelName channelFetched w with
      | (Some err, w) => (logEvent (EvSend failure (Error err)) w, None)
      | (None, w) =>
          (logEvent (EvSend success ("subscribed to channel " +:+ Quote channelName)) w,
           None)
      end
  end.

(** Where one task of [refresh] stands: before [fetch] or before
    [feed.add]. *)
Inductive refreshAt :=
| RefreshFetch (sub : channel)
| RefreshStore (channelName : string) (fetchedChannel : channel).

(** One region of a task of [refresh], for one subscribed record. *)
Definition refreshTask (at_ : refreshAt) (w : world) : world * option refreshAt :=
  match at_ with
  | RefreshFetch sub =>
      match fetch (Name sub) (URL sub) w with
      | (Err _, w) => (w, None)
      | (Ok fetchedChannel, w) => (w, Some (RefreshStore (Name sub) fetchedChannel))
      end
  | RefreshStore channelName fetchedChannel =>
      (snd (localDb.add channelName fetchedChannel w), None)
  end.

(** Where one task of [subsFromFile] stands: before [getChannelURL], before
    [fetch], or before [feed.add]. *)
Inductive fileAt :=
| FileResolve (channelName : string)
| FileFetch (channelName channelURL : string)
| FileStore (channelName : string) (fetchedChannel : channel).

(** One region of a task of [subsFromFile], for one line of the file. *)
Definition subsTask (at_ : fileAt) (w : world) : world * option fileAt :=
  match at_ with
  | FileResolve channelName =>
      match getChannelURL channelName w with
      | (Err _, w) => (w, None)
      | (Ok channelURL, w) => (w, Some (FileFetch channelName channelURL))
      end
  | FileFetch channelName channelURL =>
      match fetch channelName channelURL w with
      | (Err _, w) => (w, None)
      | (Ok fetchedChannel, w) => (w, Some (FileStore channelName fetchedChannel))
      end
  | FileStore channelName fetchedChannel =>
      (snd (localDb.add channelName fetchedChannel w), None)
  end.

(** The tasks the daemon runs on behalf of a client or of itself, each
    where it stands.  The tasks of the get, rm, subs and health endpoints
    have one region. *)
Inductive task :=
| TFetch (at_ : fetchAt)
| TAdd (at_ : addAt)
| TGet (rd : result string)
| TRm (rd : result string)
| TSubs
| THealth (rd : result string)
| TRefresh (at_ : refreshAt)
| TSubsFromFile (at_ : fileAt).

(** The next region of a task, and the task after it. *)
Definition advance (t : task) (w : world) : world * option task :=
  match t with
  | TFetch at_ => let (w, next) := handleFetch at_ w in (w, TFetch <$> next)
  | TAdd at_ => let (w, next) := handleAdd at_ w in (w, TAdd <$> next)
  | TGet rd => (handleGet rd w, None)
  | TRm rd => (handleRm rd w, None)
  | TSubs => (handleSubs w, None)
  | THealth rd => (handleHealth rd w, None)
  | TRefresh at_ => let (w, next) := refreshTask at_ w in (w, TRefresh <$> next)
  | TSubsFromFile at_ => let (w, next) := subsTask at_ w in (w, TSubsFromFile <$> next)
  end.

(** A task as it is started: on an accepted connection, by [refresh] for a
    record of its snapshot, or by [subsFromFile] for a line. *)
Definition entry (t : task) : bool :=
  match t with
  | TFetch (FetchRead _) | TAdd (AddRead _) | TGet _ | TRm _ | TSubs | THealth _
  | TRefresh (RefreshFetch _) | TSubsFromFile (FileResolve _) => true
  | _ => false
  end.

(** Whether the task answers its connection: a refresh task and a
    subscribe-from-file task write nothing. *)
Definition answers (t : task) : bool :=
  match t with
  | TRefresh _ | TSubsFromFile _ => false
  | _ => true
  end.

(** The regions a task has before it, this one included, at most. *)
Definition regions (t : task) : nat :=
  match t with
  | TFetch (FetchRead _) => 2
  | TAdd (AddRead _) => 4
  | TAdd (AddResolve _) => 3
  | TAdd (AddFetch _ _) => 2
  | TRefresh (RefreshFetch _) => 2
  | TSubsFromFile (FileResolve _) => 3
  | TSubsFromFile (FileFetch _ _) => 2
  | _ => 1
  end.

(** The record a task is about to hand to [feed.add], and under which
    name. *)
Definition storing (t : task) : option (string * channel) :=
  match t with
  | TAdd (AddStore channelName channelFetched) => Some (channelName, channelFetched)
  | TRefresh (RefreshStore channelName fetchedChannel) => Some (channelName, fetchedChannel)
  | TSubsFromFile (FileStore channelName fetchedChannel) => Some (channelName, fetchedChannel)
  | _ => None
  end.

(** A task that is about to store holds a record the fetcher returned for
    that name. *)
Definition fetchedByFetcher (t : task) : Prop :=
  ∀ channelName ch,
    storing t = Some (channelName, ch) →
    ∃ evs chURL, fetchFeed evs channelName chURL = Ok ch.

(** The daemon: the shared state and the tasks in flight.  A move starts a
    task or lets the task at a position run its next region; a list of
    moves is one interleaving. *)
Record system := {
  now : world;
  inflight : list task
}.

Inductive move :=
| Start (t : task)
| Advance (i : nat).

Definition exec (m : move) (s : system) : system :=
  match m with
  | Start t =>
      if entry t then {| now := now s; inflight := inflight s ++ [t] |} else s
  | Advance i =>
      match inflight s !! i with
      | Some t =>
          match advance t (now s) with
          | (w, Some t') => {| now := w; inflight := <[i := t']> (inflight s) |}
          | (w, None) => {| now := w; inflight := delete i (inflight s) |}
          end
      | None => s
      end
  end.

Definition run (ms : list move) (s : system) : system :=
  foldl (λ s m, exec m s) s ms.

(** A task run to its end with no other task in between. *)
Fixpoint finish (n : nat) (t : task) (w : world) : world :=
  match n with
  | O => w
  | S n' =>
      match advance t w with
      | (w', Some t') => finish n' t' w'
      | (w', None) => w'
      end
  end.

Definition alone (t : task) (w : world) : world := finish (regions t) t w.

End MoreTasks.

Definition isSend (e : event) : bool :=
  match e with EvSend _ _ => true | _ => false end.

(** Every stored record has at least one video. *)
Definition recordsNonEmpty (w : world) : Prop :=
  ∀ k ch, feed w !! k = Some ch → Videos ch ≠ [].

(** Every stored record has at most [n] videos. *)
Definition recordsWithin (n : nat) (w : world) : Prop :=
  ∀ k ch, feed w !! k = Some ch → length (Videos ch) ≤ n.

(** The two lines of a video in a rendering, without the line end. *)
Definition videoLines (v : video) : string :=
  Title v +:+ LF +:+ TAB +:+ watchURLStr +:+ VideoId v.

(** No stored record has an address that holds "=". *)
Definition addressesWithoutEquals (w : world) : Prop :=
  ∀ k ch, feed w !! k = Some ch → hasByte "="%char (URL ch) = false.

(** An outside whose resolver finds the feed address of the id "UC<name>"
    and whose fetcher returns the record [fetch] builds from a document with
    the videos [ids], and an error where [fetch] builds none. *)
Definition feeding (ids : list string) : External := {|
  ToLower := ToLowerASCII;
  Quote := λ s, DQ +:+ s +:+ DQ;
  dunstify := λ _ _, None;
  resolveURL := λ _ name, Ok (feedURLBase +:+ "UC" +:+ name);
  fetchFeed := λ _ chName chURL,
    match fetchRecord chName chURL (mkChannel "" ids) with
    | Some ch => Ok ch
    | None => Err (Outside "fetch failed")
    end
|}.

Definition isFetch (e : event) : bool :=
  match e with EvFetch _ _ => true | _ => false end.

(** An outside like [feeding] whose channel publishes between two fetches:
    the first call of the fetcher finds the videos [ids], every later one
    the videos [ids']. *)
Definition publishing (ids ids' : list string) : External := {|
  ToLower := ToLowerASCII;
  Quote := λ s, DQ +:+ s +:+ DQ;
  dunstify := λ _ _, None;
  resolveURL := λ _ name, Ok (feedURLBase +:+ "UC" +:+ name);
  fetchFeed := λ evs chName chURL,
    match fetchRecord chName chURL
            (mkChannel "" (if existsb isFetch evs then ids' else ids)) with
    | Some ch => Ok ch
    | None => Err (Outside "fetch failed")
    end
|}.

(** * Properties *)

(** ** Records and the scan *)

Lemma setVideos_same (ch : channel) : setVideos ch (Videos ch) = ch.
Proof. by destruct ch. Qed.

Lemma setFeed_same (w : world) : setFeed w (feed w) = w.
Proof. by destruct w. Qed.

Lemma length_zero_eqb {A} (l : list A) : Nat.eqb (length l) 0 = false ↔ l ≠ [].
Proof. destruct l; simpl; split; congruence. Qed.

Section ScanFacts.

Lemma scan_some (id : string) (vs : list video) (j i : nat) :
  scan id vs j = Some i →
  ∃ k v, i = j + k ∧ vs !! k = Some v ∧ VideoId v = id
         ∧ ∀ k' v', k' < k → vs !! k' = Some v' → VideoId v' ≠ id.
Proof.
  revert j. induction vs as [|vid rest IH]; intros j Hs; simpl in Hs; [done|].
  destruct (String.eqb (VideoId vid) id) eqn:E.
  - injection Hs as <-. apply String.eqb_eq in E.
    exists 0, vid. repeat split; [lia | done | intros; lia].
  - apply String.eqb_neq in E.
    destruct (IH _ Hs) as (k & v & -> & Hk & Hid & Hmin).
    exists (S k), v. repeat split; [lia | done | done |].
    intros [|k'] v' Hlt Hv'; simpl in Hv'.
    + by injection Hv' as <-.
    + apply (Hmin k' v'); [lia | done].
Qed.

Lemma scan_none (id : string) (vs : list video) (j : nat) :
  scan id vs j = None ↔ ∀ v, v ∈ vs → VideoId v ≠ id.
Proof.
  revert j. induction vs as [|vid rest IH]; intros j; simpl.
  - split; [|done]. intros _ v Hv. by apply elem_of_nil in Hv.
  - destruct (String.eqb (VideoId vid) id) eqn:E.
    + apply String.eqb_eq in E. split; [done|].
      intros Hall. exfalso. apply (Hall vid); [left | done].
    + apply String.eqb_neq in E. rewrite IH. split.
      * intros Hall v Hv. apply elem_of_cons in Hv as [->|Hv]; auto.
      * intros Hall v Hv. apply Hall. by right.
Qed.

Lemma scan_lt (id : string) (vs : list video) (i : nat) :
  scan id vs 0 = Some i → i < length vs.
Proof.
  intros Hs. destruct (scan_some _ _ _ _ Hs) as (k & v & -> & Hk & _).
  apply lookup_lt_Some in Hk. lia.
Qed.

End ScanFacts.

(** ** The notifier and its loop *)

Section NotifyFacts.
Context `{!External}.

Lemma notify_unfold (c : string) (vid : video) (w : world) :
  notify c vid w =
    match dunstify (events w) (notifyArgs (noticeText c vid)) with
    | Some e =>
        (Some e, {| feed := feed w; flagNotify := false;
                    events := events w ++ [EvNotify c vid] |})
    | None => (None, logEvent (EvNotify c vid) w)
    end.
Proof. reflexivity. Qed.

Lemma notifyLoop_feed (n k : nat) (c : string) (vs : list video) (w : world) :
  feed (notifyLoop n k c vs w) = feed w.
Proof.
  revert k w. induction n as [|n IH]; intros k w; simpl; [done|].
  destruct (vs !! k) as [vid|]; [|done]. rewrite notify_unfold.
  destruct (dunstify (events w) (notifyArgs (noticeText c vid))); [done|].
  by rewrite IH.
Qed.

Lemma notifyLoop_flag_off (n k : nat) (c : string) (vs : list video) (w : world) :
  flagNotify w = false → flagNotify (notifyLoop n k c vs w) = false.
Proof.
  revert k w. induction n as [|n IH]; intros k w Hoff; simpl; [done|].
  destruct (vs !! k) as [vid|]; [|done]. rewrite notify_unfold.
  destruct (dunstify (events w) (notifyArgs (noticeText c vid))); [done|].
  by apply IH.
Qed.

(** The loop started at index [k] with [n] iterations to go notifies
    [vs[k..t)] for some [t], every run but the last one succeeds, it stops
    short of [k + n] only on a failed run, and the flag ends as the last run
    ended. *)
Lemma notifyLoop_trace (n k : nat) (c : string) (vs : list video)
    (evs : list event) (w : world) :
  k + n ≤ length vs →
  events w = evs ++ (EvNotify c <$> take k vs) →
  flagNotify w = true →
  ∃ t, k ≤ t ≤ k + n ∧ (0 < n → k < t)
    ∧ events (notifyLoop n k c vs w) = evs ++ (EvNotify c <$> take t vs)
    ∧ (∀ j, k ≤ j → j < t - 1 → runOk evs c vs j = true)
    ∧ (t < k + n → runOk evs c vs (t - 1) = false)
    ∧ flagNotify (notifyLoop n k c vs w)
      = (if decide (t = k) then true else runOk evs c vs (t - 1)).
Proof.
  revert k w. induction n as [|n IH]; intros k w Hlen Hev Hon.
  - exists k. simpl. rewrite decide_True by done.
    repeat split; [lia | lia | lia | done | intros; lia | lia | done].
  - destruct (lookup_lt_is_Some_2 vs k) as [vid Hvid]; [lia|].
    assert (Hrun : runOk evs c vs k =
              match dunstify (events w) (notifyArgs (noticeText c vid)) with
              | None => true
              | Some _ => false
              end).
    { unfold runOk. by rewrite Hvid, Hev. }
    assert (Htake : take (S k) vs = take k vs ++ [vid]) by by apply take_S_r.
    simpl. rewrite Hvid, notify_unfold.
    destruct (dunstify (events w) (notifyArgs (noticeText c vid))) eqn:Hd.
    + exists (S k). rewrite decide_False by lia.
      replace (S k - 1) with k by lia. simpl.
      repeat split; [lia | lia | lia | | intros; lia | done | done].
      rewrite Hev, Htake, fmap_app. by rewrite <- app_assoc.
    + destruct (IH (S k) (logEvent (EvNotify c vid) w)) as
        (t & Ht & Hpos & Hevs & Hbefore & Hshort & Hflag).
      * lia.
      * simpl. rewrite Hev, Htake, fmap_app. by rewrite <- app_assoc.
      * done.
      * exists t. rewrite decide_False by lia.
        repeat split; [lia | lia | lia | done | | intros; apply Hshort; lia |].
        -- intros j Hj Hjt. destruct (decide (j = k)) as [->|]; [done|].
           apply Hbefore; lia.
        -- rewrite Hflag. case_decide as Ht'; [|done].
           subst t. by replace (S k - 1) with k by lia.
Qed.

End NotifyFacts.

(** ** The subscription store *)

Section StoreFacts.
Context `{!External}.

(** The two paths of [add] on a record with videos. *)
Lemma add_present (c : string) (ch ldbCh : channel) (latest : video)
    (rest : list video) (w : world) :
  Videos ch ≠ [] →
  feed w !! normalizeName c = Some ldbCh →
  Videos ldbCh = latest :: rest →
  localDb.add c ch w =
    let found := scan (VideoId latest) (Videos ch) 0 in
    let i := default 0 found in
    let w1 :=
      match found with
      | Some _ =>
          if flagNotify w && (0 <? i)
          then notifyLoop i 0 (normalizeName c) (Videos ch) w else w
      | None => w
      end in
    (None,
     setFeed w1
       (<[normalizeName c :=
            setVideos ldbCh
              (take i (Videos ch)
               ++ take (Nat.min maxFeedSize (length (Videos ldbCh))) (Videos ldbCh))]>
          (feed w1))).
Proof.
  intros Hne Hlook Hvs. unfold localDb.add.
  apply length_zero_eqb in Hne. rewrite Hne. simpl.
  rewrite Hlook, Hvs. reflexivity.
Qed.

Lemma add_absent (c : string) (ch : channel) (w : world) :
  Videos ch ≠ [] →
  (∀ old, feed w !! normalizeName c = Some old → Videos old = []) →
  localDb.add c ch w = localDb.store (normalizeName c) ch w.
Proof.
  intros Hne Hold. unfold localDb.add.
  apply length_zero_eqb in Hne. rewrite Hne. simpl.
  destruct (feed w !! normalizeName c) as [old|] eqn:E; [|done].
  by rewrite (Hold old eq_refl).
Qed.

(** The world in which the merge writes: notifications never touch [feed]. *)
Lemma merge_world_feed (found : option nat) (c : string) (vs : list video)
    (w : world) :
  feed (match found with
        | Some _ =>
            if flagNotify w && (0 <? default 0 found)
            then notifyLoop (default 0 found) 0 c vs w else w
        | None => w
        end) = feed w.
Proof.
  destruct found as [i|]; [|done]. simpl.
  destruct (flagNotify w && (0 <? i)); [|done]. apply notifyLoop_feed.
Qed.

Lemma add_present_feed (c : string) (ch ldbCh : channel) (latest : video)
    (rest : list video) (w : world) :
  Videos ch ≠ [] →
  feed w !! normalizeName c = Some ldbCh →
  Videos ldbCh = latest :: rest →
  fst (localDb.add c ch w) = None
  ∧ feed (snd (localDb.add c ch w)) =
      <[normalizeName c :=
          setVideos ldbCh
            (take (default 0 (scan (VideoId latest) (Videos ch) 0)) (Videos ch)
             ++ take (Nat.min maxFeedSize (length (Videos ldbCh))) (Videos ldbCh))]>
        (feed w).
Proof.
  intros Hne Hlook Hvs. rewrite (add_present _ _ _ _ _ _ Hne Hlook Hvs).
  cbv zeta. split; [done|]. simpl. by rewrite merge_world_feed.
Qed.

(** C3. [add] of a record without videos fails with the empty-feed error
    ("channel with no videos") whatever the name, the world is left as it
    was, and so every later [get] answers as before. *)
Theorem add_empty_feed (c : string) (ch : channel) (w : world) :
  Videos ch = [] →
  localDb.add c ch w = (Some EmptyFeed, w)
  ∧ Error EmptyFeed = "channel with no videos"
  ∧ ∀ k, localDb.get k (snd (localDb.add c ch w)) = localDb.get k w.
Proof.
  intros Hvs. unfold localDb.add. rewrite Hvs. simpl. done.
Qed.

(** C1. Merge on a repeated [add], overlap case.  For a stored record with
    videos and a non-empty incoming list, [add] succeeds and replaces the
    record's videos by [incoming[0:i]] followed by
    [existing[0:min(7,len(existing))]], where [i] is the least index of an
    incoming video whose id is that of the stored latest video (and 0 when
    there is none).  In particular, for stored [v3,v2,v1] and incoming
    [v5,v4,v3,v2,v1] the index is 2 and the result is [v5,v4,v3,v2,v1]. *)
Theorem add_merge_overlap :
  (∀ (c : string) (ch ldbCh : channel) (w : world),
     feed w !! normalizeName c = Some ldbCh →
     Videos ldbCh ≠ [] →
     Videos ch ≠ [] →
     ∃ (latest : video) (i : nat) (w' : world),
       head (Videos ldbCh) = Some latest
       ∧ localDb.add c ch w = (None, w')
       ∧ feed w' =
           <[normalizeName c :=
               setVideos ldbCh
                 (take i (Videos ch)
                  ++ take (Nat.min 7 (length (Videos ldbCh))) (Videos ldbCh))]>
             (feed w)
       ∧ (∀ j v, Videos ch !! j = Some v → VideoId v = VideoId latest →
            i ≤ j ∧ ∃ vi, Videos ch !! i = Some vi ∧ VideoId vi = VideoId latest)
       ∧ ((∀ v, v ∈ Videos ch → VideoId v ≠ VideoId latest) → i = 0))
  ∧ (∀ (c n n' : string) (w : world),
       feed w !! normalizeName c = Some (mkChannel n ["v3"; "v2"; "v1"]) →
       scan "v3" (Videos (mkChannel n' ["v5"; "v4"; "v3"; "v2"; "v1"])) 0 = Some 2
       ∧ ∃ w', localDb.add c (mkChannel n' ["v5"; "v4"; "v3"; "v2"; "v1"]) w = (None, w')
           ∧ feed w' !! normalizeName c
             = Some (mkChannel n ["v5"; "v4"; "v3"; "v2"; "v1"])).
Proof.
  split.
  - intros c ch ldbCh w Hlook Hex Hin.
    destruct (Videos ldbCh) as [|latest rest] eqn:Hvs; [done|].
    destruct (add_present_feed c ch ldbCh latest rest w Hin Hlook Hvs) as [Hok Hfeed].
    exists latest, (default 0 (scan (VideoId latest) (Videos ch) 0)),
      (snd (localDb.add c ch w)).
    split; [done|]. split.
    { rewrite <- Hok. by destruct (localDb.add c ch w). }
    split; [by rewrite Hfeed, Hvs|].
    destruct (scan (VideoId latest) (Videos ch) 0) as [i|] eqn:Hscan; simpl.
    + destruct (scan_some _ _ _ _ Hscan) as (k & vi & -> & Hk & Hid & Hmin).
      simpl. split.
      * intros j v Hj Hv. split; [|by exists vi].
        destruct (decide (k ≤ j)) as [|Hlt]; [done|].
        exfalso. apply (Hmin j v); [lia | done | done].
      * intros Hnone. exfalso. apply (Hnone vi); [|done].
        apply list_elem_of_lookup. by exists k.
    + split; [|done]. intros j v Hj Hv. exfalso.
      apply (proj1 (scan_none _ _ _) Hscan v); [|done].
      apply list_elem_of_lookup. by exists j.
  - intros c n n' w Hlook. split; [reflexivity|].
    destruct (add_present_feed c (mkChannel n' ["v5"; "v4"; "v3"; "v2"; "v1"])
                (mkChannel n ["v3"; "v2"; "v1"])
                (mkVideo "v3") (mkVideo <$> ["v2"; "v1"]) w) as [Hok Hfeed];
      [done | exact Hlook | reflexivity |].
    exists (snd (localDb.add c (mkChannel n' ["v5"; "v4"; "v3"; "v2"; "v1"]) w)).
    split.
    { rewrite <- Hok. by destruct (localDb.add c _ w). }
    rewrite Hfeed. by rewrite lookup_insert_eq.
Qed.

(** C4. Merge on a repeated [add], no-overlap case.  For a stored record
    with between 1 and 7 videos and a non-empty incoming list none of whose
    ids is the stored latest id, the scan finds nothing, the index is 0,
    and [add] succeeds leaving the whole world as it was: no notification
    is issued and the stored videos are unchanged. *)
Theorem add_merge_no_overlap (c : string) (ch ldbCh : channel) (latest : video)
    (w : world) :
  feed w !! normalizeName c = Some ldbCh →
  head (Videos ldbCh) = Some latest →
  length (Videos ldbCh) ≤ 7 →
  Videos ch ≠ [] →
  (∀ v, v ∈ Videos ch → VideoId v ≠ VideoId latest) →
  scan (VideoId latest) (Videos ch) 0 = None
  ∧ default 0 (scan (VideoId latest) (Videos ch) 0) = 0
  ∧ localDb.add c ch w = (None, w)
  ∧ events (snd (localDb.add c ch w)) = events w
  ∧ feed (snd (localDb.add c ch w)) !! normalizeName c = Some ldbCh.
Proof.
  intros Hlook Hhd Hlen Hin Hnone.
  destruct (Videos ldbCh) as [|latest' rest] eqn:Hvs; [done|].
  injection Hhd as ->.
  assert (Hscan : scan (VideoId latest) (Videos ch) 0 = None)
    by by apply scan_none.
  assert (Hadd : localDb.add c ch w = (None, w)).
  { rewrite (add_present _ _ _ _ _ _ Hin Hlook Hvs). rewrite Hscan. cbv zeta.
    change (default 0 (@None nat)) with 0. rewrite take_0, app_nil_l.
    rewrite Nat.min_r by (unfold maxFeedSize; rewrite Hvs; lia).
    rewrite firstn_all, setVideos_same.
    rewrite (insert_id _ _ _ Hlook). by rewrite setFeed_same. }
  rewrite Hadd, Hscan. done.
Qed.

End StoreFacts.

(** ** Keys, notifications and the add endpoint *)

Section EndpointFacts.
Context `{!External}.

Lemma take_min_length {A} (n : nat) (l : list A) :
  take (Nat.min n (length l)) l = take n l.
Proof.
  destruct (Nat.le_gt_cases n (length l)) as [Hle|Hgt].
  - by rewrite Nat.min_l.
  - rewrite Nat.min_r by lia. rewrite firstn_all. symmetry. apply take_ge. lia.
Qed.

Lemma add_result (c : string) (ch : channel) (w : world) (e : option error) :
  fst (localDb.add c ch w) = e →
  localDb.add c ch w = (e, snd (localDb.add c ch w)).
Proof. intros <-. by destruct (localDb.add c ch w). Qed.

(** C7 (as amended). Names that are equal after lower-casing and removing
    every space character (U+0020, and no other whitespace) share one key:
    after [add] of a record with videos under the first name, [get] under
    the second name succeeds and returns what [get] under the first name
    returns, namely the record [add] left under the key.  That is the
    incoming record with its videos cut to the first 7 (the incoming record
    itself when it has at most 7) when the key held no record with videos,
    and the stored record with the merged videos when it did. *)
Theorem get_after_add_same_key (n1 n2 : string) (ch : channel) (w : world) :
  ReplaceAll1 " "%char (ToLower n1) = ReplaceAll1 " "%char (ToLower n2) →
  Videos ch ≠ [] →
  ∃ (w' : world) (stored : channel),
    localDb.add n1 ch w = (None, w')
    ∧ localDb.get n2 w' = Ok stored
    ∧ localDb.get n1 w' = Ok stored
    ∧ ((∀ old, feed w !! normalizeName n1 = Some old → Videos old = []) →
         stored = setVideos ch (take 7 (Videos ch))
         ∧ (length (Videos ch) ≤ 7 → stored = ch))
    ∧ (∀ old latest,
         feed w !! normalizeName n1 = Some old →
         head (Videos old) = Some latest →
         stored =
           setVideos old
             (take (default 0 (scan (VideoId latest) (Videos ch) 0)) (Videos ch)
              ++ take (Nat.min 7 (length (Videos old))) (Videos old))).
Proof.
  intros Hkey Hin.
  assert (Hk : normalizeName n2 = normalizeName n1) by (symmetry; exact Hkey).
  assert (Hfresh :
    (∀ old, feed w !! normalizeName n1 = Some old → Videos old = []) →
    ∃ w', localDb.add n1 ch w = (None, w')
      ∧ localDb.get n2 w' = Ok (setVideos ch (take 7 (Videos ch)))
      ∧ localDb.get n1 w' = Ok (setVideos ch (take 7 (Videos ch)))).
  { intros Hold. rewrite add_absent by done.
    eexists. split; [reflexivity|].
    unfold localDb.get. rewrite Hk. unfold setFeed. cbn [feed].
    by rewrite lookup_insert_eq, take_min_length. }
  destruct (feed w !! normalizeName n1) as [old|] eqn:Hlook;
    [destruct (Videos old) as [|latest rest] eqn:Hvs|].
  - destruct Hfresh as (w' & Hadd & Hg2 & Hg1); [intros; congruence|].
    exists w', (setVideos ch (take 7 (Videos ch))).
    split; [done|]. split; [done|]. split; [done|]. split.
    + intros _. split; [done|].
      intros Hlen. rewrite take_ge by done. apply setVideos_same.
    + intros ? ? [= <-]. by rewrite Hvs.
  - clear Hfresh.
    destruct (add_present_feed n1 ch old latest rest w Hin Hlook Hvs) as [Hok Hfeed].
    eexists (snd (localDb.add n1 ch w)), _.
    split; [by apply add_result|].
    unfold localDb.get. rewrite Hk, Hfeed, lookup_insert_eq.
    split; [reflexivity|]. split; [reflexivity|]. split.
    + intros Hold. specialize (Hold old eq_refl). congruence.
    + intros ? ? [= <-]. rewrite Hvs. by intros [= <-].
  - destruct Hfresh as (w' & Hadd & Hg2 & Hg1); [intros; congruence|].
    exists w', (setVideos ch (take 7 (Videos ch))).
    split; [done|]. split; [done|]. split; [done|]. split.
    + intros _. split; [done|].
      intros Hlen. rewrite take_ge by done. apply setVideos_same.
    + intros ? ? [=].
Qed.

Lemma add_flag_off (c : string) (ch : channel) (w : world) :
  flagNotify w = false → flagNotify (snd (localDb.add c ch w)) = false.
Proof.
  intros Hoff. unfold localDb.add, localDb.store.
  destruct (Nat.eqb (length (Videos ch)) 0); [done|]. simpl.
  destruct (feed w !! normalizeName c) as [old|]; [|done].
  destruct (Videos old) as [|latest rest]; [done|]. simpl.
  destruct (scan (VideoId latest) (Videos ch) 0); [|done].
  by rewrite Hoff.
Qed.

Lemma add_pair (c : string) (ch : channel) (w : world) :
  localDb.add c ch w = (fst (localDb.add c ch w), snd (localDb.add c ch w)).
Proof. by destruct (localDb.add c ch w). Qed.

(** What one region does.  It works on the state [w0] that a store call
    leaves (none, one [rm], or the [add] of the record the task holds), adds
    to the trace its calls to the outside, and ends with one response when
    it is the last region of a task that answers. *)
Lemma advance_effect (t : task) (w : world) :
  ∃ (w0 : world) (mid : list event) (st : state) (resp : string),
    (w0 = w
     ∨ (∃ name, w0 = snd (localDb.rm name w))
     ∨ (∃ c ch, storing t = Some (c, ch) ∧ w0 = snd (localDb.add c ch w)))
    ∧ feed (fst (advance t w)) = feed w0
    ∧ flagNotify (fst (advance t w)) = flagNotify w0
    ∧ events (fst (advance t w))
      = events w0 ++ mid
        ++ match snd (advance t w) with
           | None => if answers t then [EvSend st resp] else []
           | Some _ => []
           end
    ∧ Forall (λ e, isSend e = false ∧ isNotify e = false) mid.
Proof.
  destruct t as [[rd|name url]|[rd|name|name url|name fetched]|rd|rd| |rd
                |[sub|name fetched]|[name|name url|name fetched]];
    cbn [advance handleFetch handleAdd refreshTask subsTask];
    unfold getChannelURL, fetch.
  - destruct rd as [name|err]; [destruct (resolveURL (events w) name) as [url|err]|];
      cbn.
    + exists w, [EvGetChannelURL name], failure, "".
      split; [by left|]. split_and!; [done | done | by rewrite app_nil_r |].
      by repeat constructor.
    + exists w, [EvGetChannelURL name]; eexists _, _.
      split; [by left|]. split_and!; [done | done | by rewrite <- app_assoc |].
      by repeat constructor.
    + exists w, []; eexists _, _. split; [by left|]. by split_and!.
  - destruct (fetchFeed (events w) name url) as [fetched|err]; cbn;
      (exists w, [EvFetch name url]; eexists _, _;
       split; [by left|]; split_and!; [done | done | by rewrite <- app_assoc |];
       by repeat constructor).
  - destruct rd as [name|err]; [destruct (localDb.get name w)|]; cbn.
    + exists w, []; eexists _, _. split; [by left|]. by split_and!.
    + exists w, [], failure, "". split; [by left|]. split_and!; try done.
      by rewrite app_nil_r.
    + exists w, []; eexists _, _. split; [by left|]. by split_and!.
  - destruct (resolveURL (events w) name) as [url|err]; cbn.
    + exists w, [EvGetChannelURL name], failure, "".
      split; [by left|]. split_and!; [done | done | by rewrite app_nil_r |].
      by repeat constructor.
    + exists w, [EvGetChannelURL name]; eexists _, _.
      split; [by left|]. split_and!; [done | done | by rewrite <- app_assoc |].
      by repeat constructor.
  - destruct (fetchFeed (events w) name url) as [fetched|err]; cbn.
    + exists w, [EvFetch name url], failure, "".
      split; [by left|]. split_and!; [done | done | by rewrite app_nil_r |].
      by repeat constructor.
    + exists w, [EvFetch name url]; eexists _, _.
      split; [by left|]. split_and!; [done | done | by rewrite <- app_assoc |].
      by repeat constructor.
  - rewrite (add_pair name fetched w).
    exists (snd (localDb.add name fetched w)), [].
    destruct (fst (localDb.add name fetched w));
      cbn [fst snd fmap option_fmap option_map events feed flagNotify logEvent
           answers storing];
      eexists _, _; (split; [right; right; by eexists _, _|]); by split_and!.
  - unfold handleGet. exists w, [].
    destruct rd as [name|err]; [destruct (localDb.get name w)|];
      cbn; eexists _, _; (split; [by left|]); by split_and!.
  - unfold handleRm. destruct rd as [name|err].
    + exists (snd (localDb.rm name w)), []. eexists _, _.
      split; [right; left; by exists name|]. by split_and!.
    + exists w, []. eexists _, _. split; [by left|]. by split_and!.
  - unfold handleSubs, localDb.subs. exists w, []. eexists _, _.
    split; [by left|]. by split_and!.
  - unfold handleHealth. exists w, [].
    destruct rd; cbn; eexists _, _; (split; [by left|]); by split_and!.
  - destruct (fetchFeed (events w) (Name sub) (URL sub)) as [fetched|err]; cbn;
      (exists w, [EvFetch (Name sub) (URL sub)], failure, "";
       split; [by left|]; split_and!; [done | done | by rewrite app_nil_r |];
       by repeat constructor).
  - exists (snd (localDb.add name fetched w)), [], failure, "".
    split; [right; right; by eexists _, _|].
    cbn [fst snd fmap option_fmap option_map answers]. split_and!; try done.
    by rewrite app_nil_r.
  - destruct (resolveURL (events w) name) as [url|err]; cbn;
      (exists w, [EvGetChannelURL name], failure, "";
       split; [by left|]; split_and!; [done | done | by rewrite app_nil_r |];
       by repeat constructor).
  - destruct (fetchFeed (events w) name url) as [fetched|err]; cbn;
      (exists w, [EvFetch name url], failure, "";
       split; [by left|]; split_and!; [done | done | by rewrite app_nil_r |];
       by repeat constructor).
  - exists (snd (localDb.add name fetched w)), [], failure, "".
    split; [right; right; by eexists _, _|].
    cbn [fst snd fmap option_fmap option_map answers]. split_and!; try done.
    by rewrite app_nil_r.
Qed.

(** The task a region leaves behind is of the same endpoint, nearer to its
    end, no entry point, and when it is about to store it holds what the
    fetcher just returned. *)
Lemma advance_next (t t' : task) (w : world) :
  snd (advance t w) = Some t' →
  answers t' = answers t
  ∧ regions t' < regions t
  ∧ entry t' = false
  ∧ fetchedByFetcher t'.
Proof.
  destruct t as [[rd|name url]|[rd|name|name url|name fetched]|rd|rd| |rd
                |[sub|name fetched]|[name|name url|name fetched]];
    cbn [advance handleFetch handleAdd refreshTask subsTask fst snd];
    unfold getChannelURL, fetch; try discriminate.
  - destruct rd as [name|err]; [|discriminate].
    destruct (resolveURL (events w) name); [|discriminate].
    intros [= <-]. split_and!; [done | cbn; lia | done |]. by intros ? ? [=].
  - by destruct (fetchFeed (events w) name url).
  - destruct rd as [name|err]; [|discriminate].
    destruct (localDb.get name w); [discriminate|].
    intros [= <-]. split_and!; [done | cbn; lia | done |]. by intros ? ? [=].
  - destruct (resolveURL (events w) name); [|discriminate].
    intros [= <-]. split_and!; [done | cbn; lia | done |]. by intros ? ? [=].
  - destruct (fetchFeed (events w) name url) as [fetched|] eqn:Hf; [|discriminate].
    intros [= <-]. split_and!; [done | cbn; lia | done |]. intros ? ? [= <- <-]. by eexists _, _.
  - rewrite (add_pair name fetched w). by destruct (fst (localDb.add name fetched w)).
  - destruct (fetchFeed (events w) (Name sub) (URL sub)) as [fetched|] eqn:Hf;
      [|discriminate].
    intros [= <-]. split_and!; [done | cbn; lia | done |]. intros ? ? [= <- <-]. by eexists _, _.
  - destruct (resolveURL (events w) name); [|discriminate].
    intros [= <-]. split_and!; [done | cbn; lia | done |]. by intros ? ? [=].
  - destruct (fetchFeed (events w) name url) as [fetched|] eqn:Hf; [|discriminate].
    intros [= <-]. split_and!; [done | cbn; lia | done |]. intros ? ? [= <- <-]. by eexists _, _.
Qed.

Lemma advance_flag_off (t : task) (w : world) :
  flagNotify w = false → flagNotify (fst (advance t w)) = false.
Proof.
  intros Hoff.
  destruct (advance_effect t w)
    as (w0 & mid & st & resp & [->|[[name ->]|(c & ch & _ & ->)]] & _ & -> & _);
    [done | done | by apply add_flag_off].
Qed.

(** An invariant of the state that every region keeps, for tasks of a kind
    that regions hand on, holds along every interleaving. *)
Lemma run_invariant (P : world → Prop) (Q : task → Prop) :
  (∀ t w, Q t → P w → P (fst (advance t w))) →
  (∀ t w t', Q t → snd (advance t w) = Some t' → Q t') →
  (∀ t, entry t = true → Q t) →
  ∀ ms s,
    P (now s) → Forall Q (inflight s) →
    P (now (run ms s)) ∧ Forall Q (inflight (run ms s)).
Proof.
  intros Hstep Hnext Hentry ms.
  induction ms as [|m ms IH]; intros s HP HQ; [done|].
  apply IH; clear IH; destruct m as [t|i]; cbn [exec].
  - by destruct (entry t).
  - destruct (inflight s !! i) as [t|] eqn:Hi; [|done].
    pose proof (Hstep t (now s) (Forall_lookup_1 _ _ _ _ HQ Hi) HP) as Hw.
    by destruct (advance t (now s)) as [w [t'|]].
  - destruct (entry t) eqn:He; [|done]. cbn [inflight].
    apply Forall_app. split; [done|]. constructor; [by apply Hentry|done].
  - destruct (inflight s !! i) as [t|] eqn:Hi; [|done].
    pose proof (Forall_lookup_1 _ _ _ _ HQ Hi) as Ht.
    pose proof (Hnext t (now s)) as Hn.
    destruct (advance t (now s)) as [w [t'|]]; cbn [inflight].
    + apply Forall_insert; [done|]. by apply Hn.
    + by apply Forall_delete.
Qed.

(** Nothing in the running daemon sets [*flagNotify] again, whatever tasks
    are in flight and however they interleave. *)
Lemma run_flag_off (ms : list move) (s : system) :
  flagNotify (now s) = false → flagNotify (now (run ms s)) = false.
Proof.
  intros Hoff.
  apply (run_invariant (λ w, flagNotify w = false) (λ _, True));
    [intros; by apply advance_flag_off | done | done | done |].
  by apply Forall_true.
Qed.

End EndpointFacts.

Section MergeFacts.
Context `{!External}.

(** C8. Notifier degradation.  In a merge that finds the stored latest video
    at index [i > 0] with notifications enabled, [add] calls [notify] on
    [incoming[0]], [incoming[1]], ... in that order and on nothing else: on
    the first [n] videos for some [1 ≤ n ≤ i], where every run before the
    last succeeded and the loop stopped before [i] only because run [n-1]
    failed.  The flag ends as that last run ended, once off it stays off
    through every later step of the daemon, and [add] still returns no error
    and writes the merged list. *)
Theorem add_notifies_until_failure (c : string) (ch ldbCh : channel)
    (latest : video) (i : nat) (w : world) :
  feed w !! normalizeName c = Some ldbCh →
  head (Videos ldbCh) = Some latest →
  scan (VideoId latest) (Videos ch) 0 = Some i →
  0 < i →
  flagNotify w = true →
  ∃ (w' : world) (n : nat),
    localDb.add c ch w = (None, w')
    ∧ 0 < n ≤ i
    ∧ events w' = events w ++ (EvNotify (normalizeName c) <$> take n (Videos ch))
    ∧ (∀ k, k < n - 1 → runOk (events w) (normalizeName c) (Videos ch) k = true)
    ∧ (n < i → runOk (events w) (normalizeName c) (Videos ch) (n - 1) = false)
    ∧ flagNotify w' = runOk (events w) (normalizeName c) (Videos ch) (n - 1)
    ∧ (flagNotify w' = false →
       ∀ ms tasks,
         flagNotify (now (run ms {| now := w'; inflight := tasks |})) = false)
    ∧ feed w' =
        <[normalizeName c :=
            setVideos ldbCh
              (take i (Videos ch)
               ++ take (Nat.min 7 (length (Videos ldbCh))) (Videos ldbCh))]>
          (feed w).
Proof.
  intros Hlook Hhd Hscan Hpos Hon.
  destruct (Videos ldbCh) as [|latest' rest] eqn:Hvs; [done|].
  injection Hhd as ->.
  pose proof (scan_lt _ _ _ Hscan) as Hlt.
  assert (Hin : Videos ch ≠ []) by (intros E; rewrite E in Hlt; simpl in Hlt; lia).
  destruct (notifyLoop_trace i 0 (normalizeName c) (Videos ch) (events w) w)
    as (t & Ht & Htpos & Hev & Hbefore & Hshort & Hflag);
    [lia | by rewrite take_0, app_nil_r | done |].
  rewrite decide_False in Hflag by lia.
  rewrite (add_present _ _ _ _ _ _ Hin Hlook Hvs), Hscan. cbv zeta.
  change (default 0 (Some i)) with i.
  rewrite Hon, (proj2 (Nat.ltb_lt 0 i) Hpos). cbn [andb].
  eexists _, t. split; [reflexivity|].
  unfold setFeed. cbn [events flagNotify feed].
  split; [lia|]. split; [done|].
  split; [intros k Hk; apply Hbefore; lia|].
  split; [intros Hn; apply Hshort; lia|].
  split; [done|]. split.
  - intros Hoff ms tasks.
    by apply (run_flag_off ms {| now := _; inflight := tasks |}).
  - by rewrite notifyLoop_feed, Hvs.
Qed.

(** C10. The add endpoint on a name whose key is in the store when the
    endpoint looks it up sends one failure response saying the channel is
    already subscribed and ends there: no call of the resolver or the
    fetcher, the store and the flag as they were, and no region of the task
    is left that could reach [add].  This holds wherever the task stands
    among the tasks in flight.  And when no other task runs between the
    lookup and the store, the endpoint changes the store only by inserting
    the record the fetcher returned (cut to 7 videos) under a key that was
    absent: then [add]'s merge path is not taken from here. *)
Theorem handleAdd_already_subscribed :
  (∀ (channelName : string) (ch : channel) (w : world),
     feed w !! normalizeName channelName = Some ch →
     handleAdd (AddRead (Ok channelName)) w =
       (logEvent (EvSend failure ("already subscribed to channel " +:+ Quote channelName)) w,
        None)
     ∧ events (fst (handleAdd (AddRead (Ok channelName)) w)) =
         events w
         ++ [EvSend failure ("already subscribed to channel " +:+ Quote channelName)]
     ∧ feed (fst (handleAdd (AddRead (Ok channelName)) w)) = feed w
     ∧ flagNotify (fst (handleAdd (AddRead (Ok channelName)) w)) = flagNotify w
     ∧ (∀ (tasks : list task) (i : nat),
          tasks !! i = Some (TAdd (AddRead (Ok channelName))) →
          exec (Advance i) {| now := w; inflight := tasks |} =
            {| now :=
                 logEvent
                   (EvSend failure
                      ("already subscribed to channel " +:+ Quote channelName)) w;
               inflight := delete i tasks |}))
  ∧ (∀ (rd : result string) (w : world),
       feed (alone (TAdd (AddRead rd)) w) = feed w
       ∨ ∃ channelName channelURL fetched,
           rd = Ok channelName
           ∧ feed w !! normalizeName channelName = None
           ∧ resolveURL (events w) channelName = Ok channelURL
           ∧ fetchFeed (events w ++ [EvGetChannelURL channelName])
               channelName channelURL = Ok fetched
           ∧ feed (alone (TAdd (AddRead rd)) w) =
               <[normalizeName channelName :=
                   setVideos fetched (take 7 (Videos fetched))]> (feed w)).
Proof.
  split.
  - intros channelName ch w Hlook.
    assert (Hh : handleAdd (AddRead (Ok channelName)) w =
      (logEvent (EvSend failure ("already subscribed to channel " +:+ Quote channelName)) w,
       None)).
    { unfold handleAdd, localDb.get. by rewrite Hlook. }
    rewrite Hh. split_and!; try done.
    intros tasks i Hi. cbn [exec now inflight]. rewrite Hi.
    unfold advance. by rewrite Hh.
  - intros rd w. unfold alone. cbn [regions finish advance handleAdd].
    destruct rd as [channelName|err]; [|by left].
    unfold localDb.get.
    destruct (feed w !! normalizeName channelName) as [ch|] eqn:Hlook; [by left|].
    cbn [fmap option_fmap option_map finish advance handleAdd].
    unfold getChannelURL.
    destruct (resolveURL (events w) channelName) as [channelURL|] eqn:Hurl;
      [|by left].
    cbn [fmap option_fmap option_map finish advance handleAdd].
    unfold fetch. cbn [logEvent events].
    destruct (fetchFeed (events w ++ [EvGetChannelURL channelName])
                channelName channelURL) as [fetched|] eqn:Hfetch; [|by left].
    cbn [fmap option_fmap option_map finish advance handleAdd].
    destruct (Videos fetched) as [|v vs] eqn:Hvs.
    + left. unfold localDb.add. by rewrite Hvs.
    + right. exists channelName, channelURL, fetched.
      split_and!; [done | done | done | done |].
      rewrite add_absent.
      * unfold localDb.store, setFeed. cbn [logEvent feed fst snd].
        by rewrite take_min_length, Hvs.
      * by rewrite Hvs.
      * cbn [logEvent feed]. intros; congruence.
Qed.

(** C2 (as the code behaves). Two successful [add]s on the empty store, seven
    videos and then seven videos of which the two newest are new, leave nine
    videos in the record: the merge cuts the stored list to 7 before it puts
    the new videos in front, not the result. *)
Theorem merge_exceeds_maxFeedSize :
  ∃ (w : world) (stored : channel),
    addAll [("chan", mkChannel "chan" ["7"; "6"; "5"; "4"; "3"; "2"; "1"]);
            ("chan", mkChannel "chan" ["9"; "8"; "7"; "6"; "5"; "4"; "3"])]
           startWorld = Some w
    ∧ feed w !! normalizeName "chan" = Some stored
    ∧ VideoId <$> Videos stored = ["9"; "8"; "7"; "6"; "5"; "4"; "3"; "2"; "1"]
    ∧ length (Videos stored) = 9
    ∧ maxFeedSize < length (Videos stored).
Proof.
  set (first := mkChannel "chan" ["7"; "6"; "5"; "4"; "3"; "2"; "1"]).
  set (second := mkChannel "chan" ["9"; "8"; "7"; "6"; "5"; "4"; "3"]).
  set (w1 := setFeed startWorld (<[normalizeName "chan" := first]> ∅)).
  assert (H1 : localDb.add "chan" first startWorld = (None, w1)).
  { rewrite add_absent; [reflexivity | done |].
    intros old Hold. unfold startWorld in Hold. cbn [feed] in Hold.
    by rewrite lookup_empty in Hold. }
  destruct (add_present_feed "chan" second first (mkVideo "7")
              (mkVideo <$> ["6"; "5"; "4"; "3"; "2"; "1"]) w1) as [Hok Hfeed];
    [done | apply lookup_insert_eq | reflexivity |].
  exists (snd (localDb.add "chan" second w1)), 
    (mkChannel "chan" ["9"; "8"; "7"; "6"; "5"; "4"; "3"; "2"; "1"]).
  split.
  { cbn [addAll]. rewrite H1. by rewrite (add_result _ _ _ _ Hok). }
  split; [|by repeat split; unfold maxFeedSize; simpl; lia].
  rewrite Hfeed. by rewrite lookup_insert_eq.
Qed.

(** After a merge the record holds at most [len(incoming) - 1 + 7] videos. *)
Lemma merge_length_bound (c : string) (ch ldbCh stored : channel) (w : world) :
  feed w !! normalizeName c = Some ldbCh →
  Videos ldbCh ≠ [] →
  Videos ch ≠ [] →
  feed (snd (localDb.add c ch w)) !! normalizeName c = Some stored →
  length (Videos stored) ≤ length (Videos ch) - 1 + maxFeedSize.
Proof.
  intros Hlook Hex Hin Hst.
  destruct (Videos ldbCh) as [|latest rest] eqn:Hvs; [done|].
  destruct (add_present_feed c ch ldbCh latest rest w Hin Hlook Hvs) as [_ Hfeed].
  rewrite Hfeed, lookup_insert_eq in Hst. apply (inj Some) in Hst. subst stored.
  unfold setVideos. cbn [Videos]. rewrite length_app, !length_take.
  assert (default 0 (scan (VideoId latest) (Videos ch) 0) ≤ length (Videos ch) - 1).
  { destruct (scan (VideoId latest) (Videos ch) 0) as [i|] eqn:Hs; simpl; [|lia].
    apply scan_lt in Hs. lia. }
  unfold maxFeedSize. lia.
Qed.

End MergeFacts.

(** ** The listener pool *)

Section PoolFacts.

Lemma closeLoop_enough (n : nat) (p : pool) :
  n ≤ length (lc p) →
  listenersChan.closeLoop n p =
    Returns {| lc := drop n (lc p); lcClosed := lcClosed p;
               closedL := closedL p ++ take n (lc p) |}.
Proof.
  revert p. induction n as [|n IH]; intros [q cl log] Hn; simpl in *.
  - by rewrite drop_0, app_nil_r.
  - destruct q as [|l q]; simpl in *; [lia|].
    rewrite IH by (simpl; lia). simpl. by rewrite <- app_assoc.
Qed.

Lemma closeLoop_short (n : nat) (p : pool) :
  length (lc p) < n →
  lcClosed p = false →
  listenersChan.closeLoop n p =
    Blocks {| lc := []; lcClosed := false; closedL := closedL p ++ lc p |}.
Proof.
  revert p. induction n as [|n IH]; intros [q cl log] Hn Hopen; simpl in *; [lia|].
  subst cl. destruct q as [|l q]; simpl in *.
  - by rewrite app_nil_r.
  - rewrite IH by (simpl; lia || done). simpl. by rewrite <- app_assoc.
Qed.

(** On a full open pool [close] receives and closes all 8 listeners, in
    order, closes the channel and returns. *)
Lemma close_full (p : pool) :
  lcClosed p = false →
  length (lc p) = listenersSize →
  listenersChan.close p =
    Returns {| lc := []; lcClosed := true; closedL := closedL p ++ lc p |}.
Proof.
  intros Hopen Hfull. unfold listenersChan.close.
  rewrite Hfull. cbn [listenersSize Nat.eqb].
  rewrite closeLoop_enough by lia. unfold chanClose. cbn [lcClosed lc closedL].
  rewrite Hopen, <- Hfull, drop_all, firstn_all. done.
Qed.

(** C9 (as the code behaves). [close] on an open pool returns at once when
    the pool is empty and returns with every listener closed once, in
    order, when the pool is full; with between 1 and 7 listeners it closes
    each of them once and then waits for ever for the next one: the loop
    runs [listenersSize] times, not [len(lc)] times. *)
Theorem close_returns_only_empty_or_full (p : pool) :
  lcClosed p = false →
  (length (lc p) = 0 → listenersChan.close p = Returns p)
  ∧ (length (lc p) = listenersSize →
       listenersChan.close p =
         Returns {| lc := []; lcClosed := true; closedL := closedL p ++ lc p |})
  ∧ (0 < length (lc p) < listenersSize →
       listenersChan.close p =
         Blocks {| lc := []; lcClosed := false; closedL := closedL p ++ lc p |}).
Proof.
  intros Hopen. repeat apply conj.
  - unfold listenersChan.close. by intros ->.
  - by apply close_full.
  - intros [Hpos Hlt]. unfold listenersChan.close.
    destruct (length (lc p) =? 0) eqn:E; [apply Nat.eqb_eq in E; lia|].
    by rewrite closeLoop_short.
Qed.

(** C6. Fail-fast registration.  On an open pool that already holds 8
    listeners, [add] closes the new listener, then every registered
    listener, closes the channel and ends the process with status 1; below
    capacity it appends the listener and closes nothing. *)
Theorem add_fail_fast (l : listener) (p : pool) :
  lcClosed p = false →
  (length (lc p) = 8 →
     listenersChan.add l p =
       Exits 1 {| lc := []; lcClosed := true; closedL := closedL p ++ l :: lc p |}
     ∧ (1 ≠ 0)%Z)
  ∧ (length (lc p) < 8 →
       listenersChan.add l p =
         Returns {| lc := lc p ++ [l]; lcClosed := false; closedL := closedL p |}).
Proof.
  intros Hopen. unfold listenersChan.add. split.
  - intros Hfull. split; [|done].
    rewrite Hfull. cbn [listenersSize Nat.ltb Nat.leb Nat.add].
    rewrite (close_full (Close l p)) by done. simpl. by rewrite <- app_assoc.
  - intros Hlt.
    destruct (listenersSize <? length (lc p) + 1) eqn:E.
    { apply Nat.ltb_lt in E. unfold listenersSize in E. lia. }
    unfold chanSend. rewrite Hopen.
    destruct (length (lc p) <? listenersSize) eqn:E'; [done|].
    apply Nat.ltb_ge in E'. unfold listenersSize in E'. lia.
Qed.

End PoolFacts.

(** ** The response framing *)

Section FrameFacts.

Lemma wrap64_small (z : Z) :
  (- 2 ^ 63 ≤ z < 2 ^ 63)%Z → wrap64 z = z.
Proof. intros Hz. unfold wrap64. rewrite Z.mod_small; lia. Qed.

(** With the payload at most [2^62] bytes long the doubling never overflows
    and the loop ends, with the exponent between where it stands and 62. *)
Lemma powLoop_terminates (fuel : nat) (k len : Z) :
  (1 ≤ k ≤ 62)%Z →
  (63 - k ≤ Z.of_nat fuel)%Z →
  (len ≤ 2 ^ 62)%Z →
  ∃ pow, powLoop fuel (2 ^ k) k len = Some pow ∧ (k ≤ pow ≤ 62)%Z.
Proof.
  revert k. induction fuel as [|fuel IH]; intros k Hk Hfuel Hlen; [lia|].
  simpl. destruct (2 ^ k <? len)%Z eqn:E.
  - apply Z.ltb_lt in E.
    assert (k < 62)%Z.
    { destruct (Z.lt_ge_cases k 62) as [|Hge]; [done|].
      assert (2 ^ 62 ≤ 2 ^ k)%Z by (apply Z.pow_le_mono_r; lia). lia. }
    assert (Hpow : (2 ^ k * 2 = 2 ^ (k + 1))%Z) by (rewrite Z.pow_add_r; lia).
    assert (2 ^ (k + 1) ≤ 2 ^ 62)%Z by (apply Z.pow_le_mono_r; lia).
    assert (0 < 2 ^ (k + 1))%Z by (apply Z.pow_pos_nonneg; lia).
    rewrite Hpow, !wrap64_small by lia.
    destruct (IH (k + 1)%Z) as (pow & Hp & Hb); [lia | lia | done |].
    exists pow. split; [done | lia].
  - exists k. split; [done | lia].
Qed.

Lemma powLoop_stuck_at_zero (fuel : nat) (pow len : Z) :
  (0 < len)%Z → powLoop fuel 0 pow len = None.
Proof.
  intros Hlen. revert pow. induction fuel as [|fuel IH]; intros pow; [done|].
  simpl. rewrite (proj2 (Z.ltb_lt 0 len) Hlen). apply IH.
Qed.

(** Past [2^62] bytes the counter wraps to [-2^63], then to 0, and the loop
    never ends: the bound above is the exact one. *)
Lemma powLoop_diverges (n fuel : nat) (k pow len : Z) :
  (1 ≤ k ≤ 62)%Z →
  Z.of_nat n = (62 - k)%Z →
  (2 ^ 62 < len)%Z →
  powLoop fuel (2 ^ k) pow len = None.
Proof.
  revert fuel k pow. induction n as [|n IH]; intros fuel k pow Hk Hn Hlen.
  - assert (k = 62)%Z as -> by lia. destruct fuel as [|fuel]; [done|].
    simpl. rewrite (proj2 (Z.ltb_lt _ _) Hlen).
    destruct fuel as [|fuel]; [done|]. simpl.
    assert (Hneg : (wrap64 (2 ^ 62 * 2) <? len)%Z = true).
    { apply Z.ltb_lt. change (wrap64 (2 ^ 62 * 2)) with (- 2 ^ 63)%Z. lia. }
    rewrite Hneg.
    change (wrap64 (wrap64 (2 ^ 62 * 2) * 2)) with 0%Z.
    apply powLoop_stuck_at_zero. lia.
  - destruct fuel as [|fuel]; [done|]. simpl.
    assert (2 ^ k ≤ 2 ^ 62)%Z by (apply Z.pow_le_mono_r; lia).
    rewrite (proj2 (Z.ltb_lt (2 ^ k) len)) by lia.
    assert (Hpow : (2 ^ k * 2 = 2 ^ (k + 1))%Z) by (rewrite Z.pow_add_r; lia).
    assert (2 ^ (k + 1) ≤ 2 ^ 62)%Z by (apply Z.pow_le_mono_r; lia).
    assert (0 < 2 ^ (k + 1))%Z by (apply Z.pow_pos_nonneg; lia).
    rewrite Hpow, wrap64_small by lia. apply IH; lia.
Qed.

Lemma length_list_byte_of_string (s : string) :
  length (list_byte_of_string s) = String.length s.
Proof.
  unfold list_byte_of_string. rewrite length_map.
  induction s as [|a s IH]; simpl; [done | by rewrite IH].
Qed.

Lemma decode_frame (st p1 p2 : byte) (resp : string) :
  decode (st :: p1 :: p2 :: list_byte_of_string resp) = Some (st, resp).
Proof. simpl. by rewrite string_of_list_byte_of_string. Qed.

(** C5. Protocol round trip.  For every status byte and every payload (of
    at most [2^62] bytes, beyond which the sizing loop of [send] does not
    end), the message written is the status, two power bytes and the
    payload: it is [3 + len(payload)] bytes long, byte 0 is the status and
    the bytes from index 3 on are the payload; a reader that takes byte 0
    and the bytes after index 2 gets status and payload back whatever the
    two power bytes are.  In particular (success, "hello") is sent as 8
    bytes that decode to (success, "hello"). *)
Theorem send_frame :
  (∀ (st : state) (resp : string),
     (Z.of_nat (String.length resp) ≤ 2 ^ 62)%Z →
     ∃ (msg : list byte) (p1 p2 : byte),
       send st resp = Some msg
       ∧ msg = st :: p1 :: p2 :: list_byte_of_string resp
       ∧ length msg = 3 + String.length resp
       ∧ msg !! 0 = Some st
       ∧ drop 3 msg = list_byte_of_string resp
       ∧ decode msg = Some (st, resp))
  ∧ (∀ (st p1 p2 : byte) (resp : string),
       decode (st :: p1 :: p2 :: list_byte_of_string resp) = Some (st, resp))
  ∧ (∃ msg, send success "hello" = Some msg
            ∧ length msg = 8
            ∧ decode msg = Some (success, "hello")).
Proof.
  split; [|split].
  - intros st resp Hlen. unfold send.
    destruct (powLoop_terminates 128 1 (Z.of_nat (String.length resp)))
      as (pow & Hpow & _); [lia | lia | done |].
    change (2 ^ 1)%Z with 2%Z in Hpow. rewrite Hpow.
    eexists _, _, _. split; [reflexivity|]. split; [reflexivity|].
    split; [simpl; by rewrite length_list_byte_of_string|].
    split; [done|]. split; [done|]. apply decode_frame.
  - apply decode_frame.
  - eexists. split; [reflexivity|]. split; reflexivity.
Qed.

End FrameFacts.

(** ** The theorems at work on concrete inputs *)

Lemma add_empty_feed_witness :
  Videos (mkChannel "Chan" []) = []
  ∧ @localDb.add quiet "Chan" (mkChannel "Chan" []) (subscribed ["1"])
    = (Some EmptyFeed, subscribed ["1"]).
Proof.
  split; [reflexivity|].
  exact (proj1 (@add_empty_feed quiet "Chan" (mkChannel "Chan" [])
                  (subscribed ["1"]) eq_refl)).
Defined.

Lemma add_merge_overlap_witness :
  feed (subscribed ["v3"; "v2"; "v1"]) !! @normalizeName quiet "Chan"
    = Some (mkChannel "Chan" ["v3"; "v2"; "v1"])
  ∧ Videos (mkChannel "Chan" ["v3"; "v2"; "v1"]) ≠ []
  ∧ Videos (mkChannel "Chan" ["v5"; "v4"; "v3"; "v2"; "v1"]) ≠ []
  ∧ (∃ i w', @localDb.add quiet "Chan"
               (mkChannel "Chan" ["v5"; "v4"; "v3"; "v2"; "v1"])
               (subscribed ["v3"; "v2"; "v1"]) = (None, w')
             ∧ (mkChannel "Chan" ["v5"; "v4"; "v3"; "v2"; "v1"]).(Videos) !! i
               = Some (mkVideo "v3")
             ∧ Videos <$> (feed w' !! @normalizeName quiet "Chan")
               = Some (mkVideo <$> ["v5"; "v4"; "v3"; "v2"; "v1"]))
  ∧ scan "v3" (Videos (mkChannel "Chan" ["v5"; "v4"; "v3"; "v2"; "v1"])) 0 = Some 2.
Proof.
  assert (Hex : Videos (mkChannel "Chan" ["v3"; "v2"; "v1"]) ≠ []) by discriminate.
  assert (Hin : Videos (mkChannel "Chan" ["v5"; "v4"; "v3"; "v2"; "v1"]) ≠ [])
    by discriminate.
  split; [reflexivity|]. split; [exact Hex|]. split; [exact Hin|]. split.
  - destruct (proj1 (@add_merge_overlap quiet) "Chan"
                (mkChannel "Chan" ["v5"; "v4"; "v3"; "v2"; "v1"])
                (mkChannel "Chan" ["v3"; "v2"; "v1"])
                (subscribed ["v3"; "v2"; "v1"]) eq_refl Hex Hin)
      as (latest & i & w' & Hhd & Hadd & Hfeed & Hleast & _).
    injection Hhd as <-.
    destruct (Hleast 2 (mkVideo "v3") eq_refl eq_refl) as (Hle & vi & Hvi & Hid).
    assert (Hi : i = 2).
    { destruct i as [|[|[|i]]]; [| |reflexivity|lia];
        simpl in Hvi; injection Hvi as <-; discriminate. }
    subst i. exists 2, w'. split; [exact Hadd|]. split; [reflexivity|].
    rewrite Hfeed. reflexivity.
  - exact (proj1 (proj2 (@add_merge_overlap quiet) "Chan" "Chan" "Chan"
                    (subscribed ["v3"; "v2"; "v1"]) eq_refl)).
Defined.

Lemma add_merge_no_overlap_witness :
  length (Videos (mkChannel "Chan" ["3"; "2"; "1"])) ≤ 7
  ∧ scan "3" (Videos (mkChannel "Chan" ["9"; "8"])) 0 = None
  ∧ @localDb.add quiet "Chan" (mkChannel "Chan" ["9"; "8"]) (subscribed ["3"; "2"; "1"])
    = (None, subscribed ["3"; "2"; "1"]).
Proof.
  assert (Hnone : ∀ v, v ∈ Videos (mkChannel "Chan" ["9"; "8"]) →
                       VideoId v ≠ VideoId (mkVideo "3")).
  { intros v Hv. apply list_elem_of_In in Hv. simpl in Hv.
    destruct Hv as [<-|[<-|[]]]; discriminate. }
  pose proof (@add_merge_no_overlap quiet "Chan" (mkChannel "Chan" ["9"; "8"])
                (mkChannel "Chan" ["3"; "2"; "1"]) (mkVideo "3")
                (subscribed ["3"; "2"; "1"]) eq_refl eq_refl
                ltac:(simpl; lia) ltac:(discriminate) Hnone) as (Hs & _ & Hadd & _).
  split; [simpl; lia|]. split; [exact Hs | exact Hadd].
Defined.

Lemma send_frame_witness :
  (Z.of_nat (String.length "not subscribed to channel 'chan'") ≤ 2 ^ 62)%Z
  ∧ ∃ msg, send failure "not subscribed to channel 'chan'" = Some msg
           ∧ length msg = 3 + 32
           ∧ decode msg = Some (failure, "not subscribed to channel 'chan'").
Proof.
  assert (Hlen : (Z.of_nat (String.length "not subscribed to channel 'chan'")
                  ≤ 2 ^ 62)%Z) by (simpl; lia).
  split; [exact Hlen|].
  destruct (proj1 send_frame failure "not subscribed to channel 'chan'" Hlen)
    as (msg & p1 & p2 & Hsend & _ & Hl & _ & _ & Hdec).
  exists msg. split; [exact Hsend|]. split; [exact Hl | exact Hdec].
Defined.

Lemma add_fail_fast_witness :
  lcClosed (mkPool ["fetch"; "add"; "get"; "rm"; "refresh"; "search"; "subs"; "health"])
    = false
  ∧ length (lc (mkPool ["fetch"; "add"; "get"; "rm"; "refresh"; "search"; "subs"; "health"]))
    = 8
  ∧ listenersChan.add {| Addr := "extra" |}
      (mkPool ["fetch"; "add"; "get"; "rm"; "refresh"; "search"; "subs"; "health"])
    = Exits 1
        {| lc := []; lcClosed := true;
           closedL := Build_listener <$>
             ["extra"; "fetch"; "add"; "get"; "rm"; "refresh"; "search"; "subs"; "health"] |}
  ∧ length (lc (mkPool ["fetch"; "add"])) < 8
  ∧ listenersChan.add {| Addr := "get" |} (mkPool ["fetch"; "add"])
    = Returns (mkPool ["fetch"; "add"; "get"]).
Proof.
  split; [reflexivity|]. split; [reflexivity|]. split.
  - exact (proj1 (proj1 (add_fail_fast {| Addr := "extra" |}
             (mkPool ["fetch"; "add"; "get"; "rm"; "refresh"; "search"; "subs"; "health"])
             eq_refl) eq_refl)).
  - split; [simpl; lia|].
    exact (proj2 (add_fail_fast {| Addr := "get" |} (mkPool ["fetch"; "add"]) eq_refl)
             ltac:(simpl; lia)).
Defined.

Lemma close_returns_only_empty_or_full_witness :
  lcClosed (mkPool ["fetch"; "add"; "get"]) = false
  ∧ 0 < length (lc (mkPool ["fetch"; "add"; "get"])) < listenersSize
  ∧ listenersChan.close (mkPool ["fetch"; "add"; "get"])
    = Blocks {| lc := []; lcClosed := false;
                closedL := Build_listener <$> ["fetch"; "add"; "get"] |}.
Proof.
  assert (Hk : 0 < length (lc (mkPool ["fetch"; "add"; "get"])) < listenersSize)
    by (unfold listenersSize; simpl; lia).
  split; [reflexivity|]. split; [exact Hk|].
  exact (proj2 (proj2 (close_returns_only_empty_or_full
                         (mkPool ["fetch"; "add"; "get"]) eq_refl)) Hk).
Defined.

Lemma get_after_add_same_key_witness :
  ReplaceAll1 " "%char (@ToLower quiet "My Channel")
    = ReplaceAll1 " "%char (@ToLower quiet "mychannel")
  ∧ Videos (mkChannel "My Channel" ["2"; "1"]) ≠ []
  ∧ ∃ w', @localDb.add quiet "My Channel" (mkChannel "My Channel" ["2"; "1"]) startWorld
          = (None, w')
          ∧ @localDb.get quiet "mychannel" w' = Ok (mkChannel "My Channel" ["2"; "1"]).
Proof.
  assert (Hin : Videos (mkChannel "My Channel" ["2"; "1"]) ≠ []) by discriminate.
  split; [reflexivity|]. split; [exact Hin|].
  destruct (@get_after_add_same_key quiet "My Channel" "mychannel"
              (mkChannel "My Channel" ["2"; "1"]) startWorld eq_refl Hin)
    as (w' & stored & Hadd & Hget & _ & Hfresh & _).
  exists w'. split; [exact Hadd|]. rewrite Hget. f_equal.
  apply Hfresh; [|simpl; lia].
  intros old Hold. vm_compute in Hold. discriminate.
Defined.

(** C7 (as stated) fails.  "a<TAB>b" and "ab" are equal after lower-casing
    and removing all whitespace, yet a record added under the first is not
    found under the second: [normalizeName] removes spaces only.  And under
    a key that already holds a record, [get] after [add] returns the stored
    record with the merged videos, not the record that was passed to
    [add]. *)
Lemma get_after_add_whitespace_counterexample :
  @normalizeAllWhitespace quiet ("a" +:+ TAB +:+ "b")
    = @normalizeAllWhitespace quiet "ab"
  ∧ fst (@localDb.add quiet ("a" +:+ TAB +:+ "b") (mkChannel "a b" ["1"]) startWorld)
    = None
  ∧ @localDb.get quiet "ab"
      (snd (@localDb.add quiet ("a" +:+ TAB +:+ "b") (mkChannel "a b" ["1"]) startWorld))
    = Err (NotSubscribed "ab")
  ∧ @localDb.get quiet "CHAN"
      (snd (@localDb.add quiet "Chan" (mkChannel "Other" ["2"; "1"]) (subscribed ["1"])))
    = Ok (mkChannel "Chan" ["2"; "1"])
  ∧ mkChannel "Chan" ["2"; "1"] ≠ mkChannel "Other" ["2"; "1"].
Proof.
  split; [reflexivity|]. split; [reflexivity|]. split; [by vm_compute|].
  split; [by vm_compute | discriminate].
Qed.

Lemma add_notifies_until_failure_witness :
  feed (subscribed ["3"; "2"; "1"]) !! @normalizeName failsSecond "Chan"
    = Some (mkChannel "Chan" ["3"; "2"; "1"])
  ∧ scan "3" (Videos (mkChannel "Chan" ["6"; "5"; "4"; "3"; "2"])) 0 = Some 3
  ∧ ∃ w', @localDb.add failsSecond "Chan" (mkChannel "Chan" ["6"; "5"; "4"; "3"; "2"])
            (subscribed ["3"; "2"; "1"]) = (None, w')
          ∧ events w' = [EvNotify "chan" (mkVideo "6"); EvNotify "chan" (mkVideo "5")]
          ∧ flagNotify w' = false
          ∧ Videos <$> (feed w' !! "chan")
            = Some (mkVideo <$> ["6"; "5"; "4"; "3"; "2"; "1"]).
Proof.
  split; [reflexivity|]. split; [reflexivity|].
  destruct (@add_notifies_until_failure failsSecond "Chan"
              (mkChannel "Chan" ["6"; "5"; "4"; "3"; "2"])
              (mkChannel "Chan" ["3"; "2"; "1"]) (mkVideo "3") 3
              (subscribed ["3"; "2"; "1"]) eq_refl eq_refl eq_refl
              ltac:(lia) eq_refl)
    as (w' & n & Hadd & _ & _ & _ & _ & _ & _ & _).
  exists w'. split; [exact Hadd|].
  assert (Hw : w' = snd (@localDb.add failsSecond "Chan"
                           (mkChannel "Chan" ["6"; "5"; "4"; "3"; "2"])
                           (subscribed ["3"; "2"; "1"]))) by (by rewrite Hadd).
  rewrite Hw. split; [by vm_compute|]. split; by vm_compute.
Defined.

Lemma handleAdd_already_subscribed_witness :
  feed (subscribed ["1"]) !! @normalizeName quiet "Chan" = Some (mkChannel "Chan" ["1"])
  ∧ events (fst (@handleAdd quiet (AddRead (Ok "Chan")) (subscribed ["1"])))
    = [EvSend failure ("already subscribed to channel " +:+ DQ +:+ "Chan" +:+ DQ)]
  ∧ feed (fst (@handleAdd quiet (AddRead (Ok "Chan")) (subscribed ["1"])))
    = feed (subscribed ["1"]).
Proof.
  split; [reflexivity|].
  destruct (proj1 (@handleAdd_already_subscribed quiet) "Chan" (mkChannel "Chan" ["1"])
              (subscribed ["1"]) eq_refl) as (_ & Hev & Hfeed & _).
  split; [exact Hev | exact Hfeed].
Defined.

(** * Further properties of the store *)

Section StoreMore.
Context `{!External}.

(** The three ways [add] ends. *)
Lemma add_cases (c : string) (ch : channel) (w : world) :
  (Videos ch = [] ∧ localDb.add c ch w = (Some EmptyFeed, w))
  ∨ (Videos ch ≠ []
     ∧ (∀ old, feed w !! normalizeName c = Some old → Videos old = [])
     ∧ localDb.add c ch w =
         (None, setFeed w (<[normalizeName c := setVideos ch (take 7 (Videos ch))]>
                             (feed w))))
  ∨ (Videos ch ≠ []
     ∧ ∃ old latest rest,
         feed w !! normalizeName c = Some old
         ∧ Videos old = latest :: rest
         ∧ fst (localDb.add c ch w) = None
         ∧ feed (snd (localDb.add c ch w)) =
             <[normalizeName c :=
                 setVideos old
                   (take (default 0 (scan (VideoId latest) (Videos ch) 0)) (Videos ch)
                    ++ take (Nat.min 7 (length (Videos old))) (Videos old))]>
               (feed w)).
Proof.
  destruct (Videos ch) as [|v vs] eqn:Hvs.
  { left. split; [done|]. unfold localDb.add. by rewrite Hvs. }
  right. assert (Hin : Videos ch ≠ []) by by rewrite Hvs.
  rewrite <- Hvs.
  destruct (feed w !! normalizeName c) as [old|] eqn:Hlook;
    [destruct (Videos old) as [|latest rest] eqn:Hold|].
  - left. split; [done|]. split; [intros ? [= <-]; done|].
    rewrite add_absent by (done || intros; congruence).
    unfold localDb.store. by rewrite take_min_length.
  - right. split; [done|]. exists old, latest, rest.
    destruct (add_present_feed c ch old latest rest w Hin Hlook Hold) as [Hok Hfeed].
    split_and!; [done | done | done | exact Hfeed].
  - left. split; [done|]. split; [done|].
    rewrite add_absent by (done || intros; congruence).
    unfold localDb.store. by rewrite take_min_length.
Qed.

(** [add] and [rm] touch one key only: every other key of the store reads
    as before. *)
Theorem add_rm_leave_other_keys (c : string) (ch : channel) (w : world)
    (k : string) :
  k ≠ normalizeName c →
  feed (snd (localDb.add c ch w)) !! k = feed w !! k
  ∧ feed (snd (localDb.rm c w)) !! k = feed w !! k.
Proof.
  intros Hk. split.
  - destruct (add_cases c ch w) as [[_ ->]|[(_ & _ & ->)|(_ & old & latest & rest & _ & _ & _ & ->)]];
      [done| |]; cbn [snd setFeed feed]; by rewrite lookup_insert_ne.
  - unfold localDb.rm, setFeed. cbn [snd feed]. by rewrite lookup_delete_ne.
Qed.

(** A later [add] never overwrites the display name or the address of a
    record that has videos: whatever is added under its key, the record
    found there afterwards carries the old name and address. *)
Theorem add_keeps_name_and_address (c : string) (ch old : channel) (w : world) :
  feed w !! normalizeName c = Some old →
  Videos old ≠ [] →
  ∃ stored,
    feed (snd (localDb.add c ch w)) !! normalizeName c = Some stored
    ∧ Name stored = Name old
    ∧ URL stored = URL old.
Proof.
  intros Hlook Hold.
  destruct (add_cases c ch w) as [[_ ->]|[(_ & Habs & _)|(_ & old' & latest & rest & Hl & _ & _ & ->)]].
  - by exists old.
  - by specialize (Habs old Hlook).
  - rewrite Hlook in Hl. injection Hl as <-.
    eexists. by rewrite lookup_insert_eq.
Qed.

(** A fetch that brings nothing new: when the first incoming video is the
    stored latest one, [add] issues no notification and leaves the flag
    alone; the stored list is cut to its first 7 videos, so a record of at
    most 7 videos (and with it the whole world) is unchanged. *)
Theorem add_nothing_new (c : string) (ch old : channel) (latest first : video)
    (w : world) :
  feed w !! normalizeName c = Some old →
  head (Videos old) = Some latest →
  head (Videos ch) = Some first →
  VideoId first = VideoId latest →
  localDb.add c ch w =
    (None, setFeed w (<[normalizeName c := setVideos old (take 7 (Videos old))]>
                        (feed w)))
  ∧ (length (Videos old) ≤ 7 → localDb.add c ch w = (None, w)).
Proof.
  intros Hlook Hhd Hfirst Hid.
  destruct (Videos old) as [|latest' rest] eqn:Hold; [done|]. injection Hhd as ->.
  destruct (Videos ch) as [|first' vs] eqn:Hvs; [done|]. injection Hfirst as ->.
  assert (Hin : Videos ch ≠ []) by by rewrite Hvs.
  rewrite <- Hold.
  assert (Hadd : localDb.add c ch w =
    (None, setFeed w (<[normalizeName c := setVideos old (take 7 (Videos old))]>
                        (feed w)))).
  { rewrite (add_present _ _ _ _ _ _ Hin Hlook Hold). rewrite Hvs.
    cbn [scan]. rewrite (proj2 (String.eqb_eq _ _) Hid). cbv zeta.
    change (default 0 (Some 0)) with 0. rewrite Nat.ltb_irrefl, andb_false_r.
    rewrite take_0, app_nil_l. by rewrite take_min_length. }
  split; [exact Hadd|].
  intros Hlen. rewrite Hadd, take_ge by done.
  by rewrite setVideos_same, (insert_id _ _ _ Hlook), setFeed_same.
Qed.

End StoreMore.

Section StoreInvariants.
Context `{!External}.

Lemma notifyLoop_events (n k : nat) (c : string) (vs : list video) (w : world) :
  ∃ vids, events (notifyLoop n k c vs w) = events w ++ (EvNotify c <$> vids).
Proof.
  revert k w. induction n as [|n IH]; intros k w; simpl.
  - exists []. by rewrite app_nil_r.
  - destruct (vs !! k) as [vid|]; [|exists []; by rewrite app_nil_r].
    rewrite notify_unfold.
    destruct (dunstify (events w) (notifyArgs (noticeText c vid))).
    + by exists [vid].
    + destruct (IH (S k) (logEvent (EvNotify c vid) w)) as [vids Hv].
      exists (vid :: vids). rewrite Hv. simpl. by rewrite <- app_assoc.
Qed.

(** [add] extends the trace by notifications only, and by none when the
    flag is off. *)
Lemma add_events (c : string) (ch : channel) (w : world) :
  ∃ vids,
    events (snd (localDb.add c ch w))
    = events w ++ (EvNotify (normalizeName c) <$> vids)
    ∧ (flagNotify w = false → vids = []).
Proof.
  unfold localDb.add, localDb.store.
  destruct (Nat.eqb (length (Videos ch)) 0);
    [exists []; by rewrite app_nil_r|]. cbv zeta.
  destruct (feed w !! normalizeName c) as [old|];
    [|exists []; by rewrite app_nil_r].
  destruct (Videos old) as [|latest rest]; [exists []; by rewrite app_nil_r|].
  destruct (scan (VideoId latest) (Videos ch) 0) as [i|];
    [|exists []; by rewrite app_nil_r].
  change (default 0 (Some i)) with i. cbn [snd setFeed events].
  destruct (flagNotify w) eqn:Hflag; cbn [andb];
    [|exists []; by rewrite app_nil_r].
  destruct (0 <? i); [|exists []; by rewrite app_nil_r].
  destruct (notifyLoop_events i 0 (normalizeName c) (Videos ch) w) as [vids Hv].
  exists vids. split; [exact Hv | done].
Qed.

(** When the scan index is 0 the merge runs no notification and cuts the
    stored list to 7. *)
Lemma add_index_zero (c : string) (ch old : channel) (latest : video)
    (rest : list video) (w : world) :
  Videos ch ≠ [] →
  feed w !! normalizeName c = Some old →
  Videos old = latest :: rest →
  default 0 (scan (VideoId latest) (Videos ch) 0) = 0 →
  localDb.add c ch w =
    (None, setFeed w (<[normalizeName c := setVideos old (take 7 (Videos old))]>
                        (feed w))).
Proof.
  intros Hin Hlook Hold Hzero.
  rewrite (add_present _ _ _ _ _ _ Hin Hlook Hold). cbv zeta. rewrite Hzero.
  rewrite take_0, app_nil_l, take_min_length.
  destruct (scan (VideoId latest) (Videos ch) 0); [|done].
  by rewrite Nat.ltb_irrefl, andb_false_r.
Qed.

Lemma scan_head (v : video) (vs : list video) :
  scan (VideoId v) (v :: vs) 0 = Some 0.
Proof. simpl. by rewrite String.eqb_refl. Qed.

(** Adding a record with the same videos a second time is silent: no
    notification is issued again and the flag is not touched; the record
    found under the key after the first [add] only has its list cut to the
    first 7. *)
Theorem add_again_is_silent (c : string) (ch : channel) (w : world) :
  Videos ch ≠ [] →
  ∃ stored,
    feed (snd (localDb.add c ch w)) !! normalizeName c = Some stored
    ∧ localDb.add c ch (snd (localDb.add c ch w)) =
        (None,
         setFeed (snd (localDb.add c ch w))
           (<[normalizeName c := setVideos stored (take 7 (Videos stored))]>
              (feed (snd (localDb.add c ch w)))))
    ∧ events (snd (localDb.add c ch (snd (localDb.add c ch w))))
      = events (snd (localDb.add c ch w))
    ∧ flagNotify (snd (localDb.add c ch (snd (localDb.add c ch w))))
      = flagNotify (snd (localDb.add c ch w)).
Proof.
  intros Hin.
  assert (Hgoal : ∃ stored latest rest,
    feed (snd (localDb.add c ch w)) !! normalizeName c = Some stored
    ∧ Videos stored = latest :: rest
    ∧ default 0 (scan (VideoId latest) (Videos ch) 0) = 0).
  { destruct (add_cases c ch w)
      as [[Hnil _]|[(_ & _ & ->)|(_ & old & latest & rest & Hlook & Hold & _ & ->)]];
      [done| |].
    - destruct (Videos ch) as [|v vs] eqn:Hvs; [done|].
      eexists _, v, (take 6 vs). cbn [snd setFeed feed].
      rewrite lookup_insert_eq. split; [done|]. split; [done|].
      by rewrite scan_head.
    - destruct (scan (VideoId latest) (Videos ch) 0) as [[|i]|] eqn:Hscan.
      + eexists _, latest, _. rewrite lookup_insert_eq. split; [done|].
        split; [by rewrite Hold|]. by rewrite Hscan.
      + destruct (Videos ch) as [|v vs] eqn:Hvs; [done|].
        eexists _, v, _. rewrite lookup_insert_eq. split; [done|].
        split; [done|]. by rewrite scan_head.
      + eexists _, latest, _. rewrite lookup_insert_eq. split; [done|].
        split; [by rewrite Hold|]. by rewrite Hscan. }
  destruct Hgoal as (stored & latest & rest & Hst & Hvs & Hzero).
  exists stored. split; [exact Hst|].
  rewrite (add_index_zero _ _ _ _ _ _ Hin Hst Hvs Hzero). done.
Qed.

(** [rm] never fails and forgets the record: afterwards [get] fails under
    every name of that key, removing again or removing an unknown name
    changes nothing, and a later [add] stores the incoming record afresh
    (first 7 videos), whatever was there before. *)
Theorem rm_forgets (c c' : string) (ch : channel) (w : world) :
  normalizeName c' = normalizeName c →
  fst (localDb.rm c w) = None
  ∧ localDb.get c' (snd (localDb.rm c w)) = Err (NotSubscribed (normalizeName c))
  ∧ snd (localDb.rm c (snd (localDb.rm c w))) = snd (localDb.rm c w)
  ∧ (feed w !! normalizeName c = None → snd (localDb.rm c w) = w)
  ∧ (Videos ch ≠ [] →
       localDb.get c' (snd (localDb.add c ch (snd (localDb.rm c w))))
       = Ok (setVideos ch (take 7 (Videos ch)))).
Proof.
  intros Hk. unfold localDb.rm, localDb.get, setFeed. cbn [fst snd feed flagNotify events].
  rewrite Hk. split; [done|]. split; [by rewrite lookup_delete_eq|].
  split; [by rewrite delete_delete_eq|]. split.
  - intros Hnone. rewrite delete_id by done. by destruct w.
  - intros Hin. rewrite add_absent; [|done|].
    + unfold localDb.store, setFeed. cbn [snd feed].
      by rewrite lookup_insert_eq, take_min_length.
    + cbn [feed]. intros old. by rewrite lookup_delete_eq.
Qed.

(** [subs] returns exactly the stored records, one per key. *)
Theorem subs_lists_the_store (w : world) :
  ∃ chs,
    localDb.subs w = Ok chs
    ∧ length chs = size (feed w)
    ∧ ∀ ch, ch ∈ chs ↔ ∃ k, feed w !! k = Some ch.
Proof.
  eexists. split; [reflexivity|]. split.
  - by rewrite length_fmap, length_map_to_list.
  - intros ch. rewrite list_elem_of_fmap. split.
    + intros ([k ch'] & -> & Hin). exists k. by apply elem_of_map_to_list.
    + intros [k Hk]. exists (k, ch). split; [done|]. by apply elem_of_map_to_list.
Qed.

End StoreInvariants.

(** * The tasks *)

Section TaskFacts.
Context `{!External}.

(** What a region does to the store: nothing, one [delete], or one [add] of
    the record the task holds. *)
Lemma advance_feed (t : task) (w : world) :
  feed (fst (advance t w)) = feed w
  ∨ (∃ c, feed (fst (advance t w)) = delete (normalizeName c) (feed w))
  ∨ (∃ c ch, storing t = Some (c, ch)
       ∧ feed (fst (advance t w)) = feed (snd (localDb.add c ch w))).
Proof.
  destruct (advance_effect t w)
    as (w0 & mid & st & resp & [->|[[name ->]|(c & ch & Hs & ->)]] & Hfeed & _).
  - by left.
  - right; left. by exists name.
  - right; right. by exists c, ch.
Qed.

Lemma entry_fetchedByFetcher (t : task) : entry t = true → fetchedByFetcher t.
Proof.
  destruct t as [[rd|name url]|[rd|name|name url|name fetched]|rd|rd| |rd
                |[sub|name fetched]|[name|name url|name fetched]];
    cbn [entry]; try discriminate; by intros _ ? ? [=].
Qed.

Lemma regions_pos (t : task) : 0 < regions t.
Proof.
  destruct t as [[rd|name url]|[rd|name|name url|name fetched]|rd|rd| |rd
                |[sub|name fetched]|[name|name url|name fetched]];
    cbn [regions]; lia.
Qed.

(** An invariant of the state that every region of a task holding a fetched
    record keeps, holds along every interleaving. *)
Lemma run_keeps (P : world → Prop) :
  (∀ t w, fetchedByFetcher t → P w → P (fst (advance t w))) →
  ∀ ms s,
    P (now s) → Forall fetchedByFetcher (inflight s) → P (now (run ms s)).
Proof.
  intros Hstep ms s HP HQ.
  apply (run_invariant P fetchedByFetcher); try done.
  - intros t w t' _ Hnext. by apply (advance_next t t' w).
  - apply entry_fetchedByFetcher.
Qed.

Lemma add_keeps_nonempty (c : string) (ch : channel) (w : world) :
  recordsNonEmpty w → recordsNonEmpty (snd (localDb.add c ch w)).
Proof.
  intros Hinv k stored.
  destruct (add_cases c ch w)
    as [[_ ->]|[(Hin & _ & ->)|(Hin & old & latest & rest & _ & Hold & _ & ->)]];
    [apply Hinv| |]; cbn [snd setFeed feed];
    (destruct (decide (k = normalizeName c)) as [->|Hk];
       [rewrite lookup_insert_eq; intros [= <-]
       |rewrite lookup_insert_ne by done; apply Hinv]).
  - destruct (Videos ch); [done|discriminate].
  - cbn [setVideos Videos]. rewrite Hold. intros Happ.
    apply app_eq_nil in Happ as [_ Happ]. discriminate.
Qed.

Lemma add_within_13 (c : string) (ch : channel) (w : world) :
  recordsWithin 13 w →
  length (Videos ch) ≤ maxFeedSize →
  recordsWithin 13 (snd (localDb.add c ch w)).
Proof.
  unfold maxFeedSize. intros Hinv Hlen k stored.
  destruct (add_cases c ch w)
    as [[_ ->]|[(Hin & _ & ->)|(Hin & old & latest & rest & _ & Hold & _ & ->)]];
    [apply Hinv| |]; cbn [snd setFeed feed];
    (destruct (decide (k = normalizeName c)) as [->|Hk];
       [rewrite lookup_insert_eq; intros Heq; apply (inj Some) in Heq; subst stored
       |rewrite lookup_insert_ne by done; apply Hinv]).
  - unfold setVideos. cbn [Videos]. rewrite length_take. lia.
  - unfold setVideos. cbn [Videos]. rewrite length_app, !length_take.
    assert (default 0 (scan (VideoId latest) (Videos ch) 0) ≤ 6).
    { destruct (scan (VideoId latest) (Videos ch) 0) as [i|] eqn:Hs; simpl; [|lia].
      apply scan_lt in Hs. lia. }
    lia.
Qed.

Lemma fetchRecord_videos (chName chURL : string) (parsed ch : channel) :
  fetchRecord chName chURL parsed = Some ch →
  Name ch = chName
  ∧ Videos ch = take maxFeedSize (Videos parsed)
  ∧ length (Videos ch) ≤ maxFeedSize.
Proof.
  unfold fetchRecord. destruct (0 <? length _).
  - destruct (Split1 "=" chURL !! 1); [|done]. intros [= <-]. cbn [Name Videos].
    destruct (maxFeedSize <? length (Videos parsed)) eqn:E.
    + split; [done|]. split; [done|]. rewrite length_take. lia.
    + apply Nat.ltb_ge in E. split; [done|]. split; [by rewrite take_ge | done].
  - intros [= <-]. cbn [Name Videos].
    destruct (maxFeedSize <? length (Videos parsed)) eqn:E.
    + split; [done|]. split; [done|]. rewrite length_take. lia.
    + apply Nat.ltb_ge in E. split; [done|]. split; [by rewrite take_ge | done].
Qed.

Lemma advance_keeps_nonempty (t : task) (w : world) :
  recordsNonEmpty w → recordsNonEmpty (fst (advance t w)).
Proof.
  intros Hinv.
  destruct (advance_feed t w) as [Hf|[[c Hf]|(c & ch & _ & Hf)]];
    intros k stored; rewrite Hf.
  - apply Hinv.
  - intros Hk. apply lookup_delete_Some in Hk as [_ Hk]. by apply (Hinv k).
  - by apply add_keeps_nonempty.
Qed.

Lemma advance_within_13 (t : task) (w : world) :
  fetchAsWritten → fetchedByFetcher t →
  recordsWithin 13 w → recordsWithin 13 (fst (advance t w)).
Proof.
  intros Hfetch Ht Hinv.
  destruct (advance_feed t w) as [Hf|[[c Hf]|(c & ch & Hs & Hf)]];
    intros k stored; rewrite Hf.
  - apply Hinv.
  - intros Hk. apply lookup_delete_Some in Hk as [_ Hk]. by apply (Hinv k).
  - destruct (Ht c ch Hs) as (evs & url & Hfe).
    destruct (Hfetch _ _ _ _ Hfe) as [parsed Hp].
    apply fetchRecord_videos in Hp as (_ & _ & Hlen).
    by apply add_within_13.
Qed.

(** The store never holds a record without videos: [add], [rm] and every
    region of every task keep that, whatever tasks are in flight and however
    they interleave, and it holds of the empty store the daemon starts
    with. *)
Theorem records_stay_nonempty (w : world) :
  recordsNonEmpty w →
  (∀ c ch, recordsNonEmpty (snd (localDb.add c ch w)))
  ∧ (∀ c, recordsNonEmpty (snd (localDb.rm c w)))
  ∧ (∀ ms tasks,
       recordsNonEmpty (now (run ms {| now := w; inflight := tasks |}))).
Proof.
  intros Hinv. split; [intros; by apply add_keeps_nonempty|]. split.
  - intros c k ch. unfold localDb.rm, setFeed. cbn [snd feed].
    intros Hk. apply lookup_delete_Some in Hk as [_ Hk]. by apply (Hinv k).
  - intros ms tasks.
    apply (run_invariant recordsNonEmpty (λ _, True)); try done.
    + intros t w' _. apply advance_keeps_nonempty.
    + by apply Forall_true.
Qed.

(** With incoming lists of at most 7 videos, as [fetch] delivers them, no
    record ever exceeds 13 videos: the merge cuts the stored list to 7 and
    puts at most 6 new videos in front.  This holds for every [add] and,
    with a fetcher that answers as [fetch] is written, along every
    interleaving of the tasks, from any tasks in flight that hold a record
    the fetcher returned. *)
Theorem records_stay_within_13 (w : world) :
  recordsWithin 13 w →
  (∀ c ch, length (Videos ch) ≤ maxFeedSize →
           recordsWithin 13 (snd (localDb.add c ch w)))
  ∧ (fetchAsWritten →
     ∀ ms tasks,
       Forall fetchedByFetcher tasks →
       recordsWithin 13 (now (run ms {| now := w; inflight := tasks |}))).
Proof.
  intros Hinv. split; [intros; by apply add_within_13|].
  intros Hfetch ms tasks Htasks.
  apply (run_keeps (recordsWithin 13)); [|done|done].
  intros t w'. by apply advance_within_13.
Qed.

End TaskFacts.

Section TaskTraces.
Context `{!External}.

(** The trace of one region: notifications of the store call and calls to
    the outside, then the response if the region ends a task that
    answers. *)
Lemma advance_events (t : task) (w : world) :
  ∃ mid st resp,
    events (fst (advance t w))
    = events w ++ mid
      ++ match snd (advance t w) with
         | None => if answers t then [EvSend st resp] else []
         | Some _ => []
         end
    ∧ Forall (λ e, isSend e = false) mid
    ∧ (flagNotify w = false → Forall (λ e, isNotify e = false) mid).
Proof.
  destruct (advance_effect t w)
    as (w0 & mid & st & resp & Hw0 & _ & _ & Hev & Hmid).
  assert (Hsend : Forall (λ e, isSend e = false) mid)
    by (by eapply Forall_impl; [exact Hmid|intros ? []]).
  assert (Hnote : Forall (λ e, isNotify e = false) mid)
    by (by eapply Forall_impl; [exact Hmid|intros ? []]).
  destruct Hw0 as [->|[[name ->]|(c & ch & _ & ->)]].
  - by exists mid, st, resp.
  - by exists mid, st, resp.
  - destruct (add_events c ch w) as (vids & Hadd & Hoff).
    exists ((EvNotify (normalizeName c) <$> vids) ++ mid), st, resp.
    split; [by rewrite Hev, Hadd, <- !app_assoc|]. split.
    + apply Forall_app. split; [|done]. apply Forall_fmap. by apply Forall_true.
    + intros Hw. by rewrite (Hoff Hw).
Qed.

(** The trace of a task that runs to its end with no other task in
    between. *)
Lemma finish_events (n : nat) (t : task) (w : world) :
  regions t ≤ n →
  ∃ mid st resp,
    events (finish n t w)
    = events w ++ mid ++ (if answers t then [EvSend st resp] else [])
    ∧ Forall (λ e, isSend e = false) mid.
Proof.
  revert t w. induction n as [|n IH]; intros t w Hn.
  { pose proof (regions_pos t). lia. }
  destruct (advance_events t w) as (mid & st & resp & Hev & Hmid & _).
  cbn [finish].
  destruct (advance t w) as [w' [t'|]] eqn:Hadv; cbn [fst snd] in *.
  - destruct (advance_next t t' w) as (Hans & Hlt & _); [by rewrite Hadv|].
    destruct (IH t' w' ltac:(lia)) as (mid' & st' & resp' & Hev' & Hmid').
    exists (mid ++ mid'), st', resp'. rewrite Hans in Hev'.
    split; [|by apply Forall_app].
    by rewrite Hev', Hev, app_nil_r, <- !app_assoc.
  - by exists mid, st, resp.
Qed.

(** One response per connection.  Region by region: a task sends nothing
    while it has regions left, the region that ends a task of the fetch,
    add, get, rm, subs or health endpoint sends exactly one response as the
    last thing it does, and the one that ends a refresh task or a
    subscribe-from-file task sends none; every region hands on a task of
    the same endpoint with fewer regions left.  So a task run to its end,
    with no other task in between, sends exactly one response or none. *)
Theorem every_task_answers_once (t : task) (w : world) :
  (∃ mid st resp,
     events (fst (advance t w))
     = events w ++ mid
       ++ match snd (advance t w) with
          | None => if answers t then [EvSend st resp] else []
          | Some _ => []
          end
     ∧ Forall (λ e, isSend e = false) mid)
  ∧ (∀ t', snd (advance t w) = Some t' →
           answers t' = answers t ∧ 0 < regions t' < regions t)
  ∧ ∃ mid st resp,
      events (alone t w)
      = events w ++ mid ++ (if answers t then [EvSend st resp] else [])
      ∧ Forall (λ e, isSend e = false) mid.
Proof.
  split; [|split].
  - destruct (advance_events t w) as (mid & st & resp & Hev & Hsend & _).
    by exists mid, st, resp.
  - intros t' Hnext.
    destruct (advance_next t t' w Hnext) as (Hans & Hlt & _).
    pose proof (regions_pos t'). split; [done | lia].
  - by apply finish_events.
Qed.

(** With the notification flag off nothing the daemon does runs
    [dunstify]: whatever tasks are in flight and however they interleave,
    the trace gains no notification and the flag stays off. *)
Theorem no_notification_when_flag_off (ms : list move) (s : system) :
  flagNotify (now s) = false →
  flagNotify (now (run ms s)) = false
  ∧ ∃ evs, events (now (run ms s)) = events (now s) ++ evs
           ∧ Forall (λ e, isNotify e = false) evs.
Proof.
  intros Hoff.
  apply (run_invariant
           (λ w, flagNotify w = false
                 ∧ ∃ evs, events w = events (now s) ++ evs
                          ∧ Forall (λ e, isNotify e = false) evs)
           (λ _, True)); try done.
  - intros t w _ (Hw & evs & Hevs & Hall).
    split; [by apply advance_flag_off|].
    destruct (advance_events t w) as (mid & st & resp & Hev & _ & Hnote).
    eexists. split; [by rewrite Hev, Hevs, <- !app_assoc|].
    apply Forall_app. split; [done|]. apply Forall_app. split; [by apply Hnote|].
    destruct (snd (advance t w)); [done|]. destruct (answers t); by repeat constructor.
  - split; [done|]. exists []. by rewrite app_nil_r.
  - by apply Forall_true.
Qed.

End TaskTraces.

Section EndpointAnswers.
Context `{!External}.

(** A task of the add endpoint that no other task interrupts is the
    handler as it is written, from top to bottom. *)
Lemma alone_handleAdd (channelName : string) (w : world) :
  alone (TAdd (AddRead (Ok channelName))) w =
    match localDb.get channelName w with
    | Ok _ =>
        logEvent
          (EvSend failure ("already subscribed to channel " +:+ Quote channelName)) w
    | Err _ =>
        let w1 := logEvent (EvGetChannelURL channelName) w in
        match resolveURL (events w) channelName with
        | Err err => logEvent (EvSend failure (Error err)) w1
        | Ok channelURL =>
            let w2 := logEvent (EvFetch channelName channelURL) w1 in
            match fetchFeed (events w1) channelName channelURL with
            | Err err => logEvent (EvSend failure (Error err)) w2
            | Ok channelFetched =>
                match localDb.add channelName channelFetched w2 with
                | (Some err, w3) => logEvent (EvSend failure (Error err)) w3
                | (None, w3) =>
                    logEvent
                      (EvSend success
                         ("subscribed to channel " +:+ Quote channelName)) w3
                end
            end
        end
    end.
Proof.
  unfold alone. cbn [regions finish advance handleAdd].
  destruct (localDb.get channelName w); [done|].
  cbn [fmap option_fmap option_map finish advance handleAdd].
  unfold getChannelURL. cbv zeta.
  destruct (resolveURL (events w) channelName) as [channelURL|]; [|done].
  cbn [fmap option_fmap option_map finish advance handleAdd].
  unfold fetch.
  destruct (fetchFeed (events (logEvent (EvGetChannelURL channelName) w))
              channelName channelURL) as [fetched|]; [|done].
  cbn [fmap option_fmap option_map finish advance handleAdd].
  rewrite (add_pair channelName fetched).
  by destruct (fst (localDb.add channelName fetched _)).
Qed.

(** The add endpoint answers success exactly when [add] has stored.  The
    regions before the store leave the store and the flag as they were and
    answer, if at all, with a failure.  The record the store region holds is
    the one the fetcher returned, on the address the resolver returned.  The
    store region always ends the task: on a record without videos it
    answers the failure "channel with no videos" and leaves the store as it
    was; otherwise it answers "subscribed to channel <quoted name>", and
    [get] then returns the fetched record (first 7 videos) when the key
    holds no record with videos at that moment, and the stored record with
    the new videos merged in when some task has stored one since the
    lookup.  With no other task in between, a success means that the key
    was absent and that [get] now returns what the fetcher returned, cut to
    7 videos, and a failure that the store is as it was. *)
Theorem handleAdd_answer_matches_store :
  (∀ (at_ : addAt) (w : world),
     storing (TAdd at_) = None →
     feed (fst (handleAdd at_ w)) = feed w
     ∧ flagNotify (fst (handleAdd at_ w)) = flagNotify w
     ∧ ∃ mid,
         Forall (λ e, isSend e = false) mid
         ∧ match snd (handleAdd at_ w) with
           | Some _ => events (fst (handleAdd at_ w)) = events w ++ mid
           | None =>
               ∃ resp,
                 events (fst (handleAdd at_ w))
                 = events w ++ mid ++ [EvSend failure resp]
           end)
  ∧ (∀ (at_ : addAt) (w : world) (channelName : string) (fetched : channel),
       snd (handleAdd at_ w) = Some (AddStore channelName fetched) →
       ∃ channelURL,
         at_ = AddFetch channelName channelURL
         ∧ fetchFeed (events w) channelName channelURL = Ok fetched)
  ∧ (∀ (at_ : addAt) (w : world) (channelName channelURL : string),
       snd (handleAdd at_ w) = Some (AddFetch channelName channelURL) →
       at_ = AddResolve channelName
       ∧ resolveURL (events w) channelName = Ok channelURL)
  ∧ (∀ (channelName : string) (fetched : channel) (w : world),
       snd (handleAdd (AddStore channelName fetched) w) = None
       ∧ (Videos fetched = [] →
          fst (handleAdd (AddStore channelName fetched) w)
          = logEvent (EvSend failure "channel with no videos") w)
       ∧ (Videos fetched ≠ [] →
          ∃ stored,
            fst (handleAdd (AddStore channelName fetched) w)
            = logEvent
                (EvSend success ("subscribed to channel " +:+ Quote channelName))
                (snd (localDb.add channelName fetched w))
            ∧ localDb.get channelName
                (fst (handleAdd (AddStore channelName fetched) w)) = Ok stored
            ∧ ((∀ old, feed w !! normalizeName channelName = Some old →
                       Videos old = []) →
               stored = setVideos fetched (take 7 (Videos fetched)))
            ∧ (∀ old latest rest,
                 feed w !! normalizeName channelName = Some old →
                 Videos old = latest :: rest →
                 stored =
                   setVideos old
                     (take (default 0 (scan (VideoId latest) (Videos fetched) 0))
                        (Videos fetched)
                      ++ take (Nat.min 7 (length (Videos old))) (Videos old)))))
  ∧ (∀ (rd : result string) (w : world),
       ∃ mid st resp,
         events (alone (TAdd (AddRead rd)) w) = events w ++ mid ++ [EvSend st resp]
         ∧ ((st = success
             ∧ ∃ channelName channelURL fetched,
                 rd = Ok channelName
                 ∧ resp = "subscribed to channel " +:+ Quote channelName
                 ∧ feed w !! normalizeName channelName = None
                 ∧ resolveURL (events w) channelName = Ok channelURL
                 ∧ fetchFeed (events w ++ [EvGetChannelURL channelName])
                     channelName channelURL = Ok fetched
                 ∧ localDb.get channelName (alone (TAdd (AddRead rd)) w)
                   = Ok (setVideos fetched (take 7 (Videos fetched))))
            ∨ (st = failure ∧ feed (alone (TAdd (AddRead rd)) w) = feed w))).
Proof.
  split_and!.
  - intros at_ w Hst.
    destruct at_ as [rd|name|name url|name fetched]; [| | |discriminate];
      cbn [handleAdd]; unfold getChannelURL, fetch.
    + destruct rd as [name|err]; [destruct (localDb.get name w)|];
        cbn [fst snd logEvent feed flagNotify events];
        (split; [done|]); (split; [done|]); exists []; (split; [done|]);
        try (by eexists); by rewrite app_nil_r.
    + destruct (resolveURL (events w) name);
        cbn [fst snd logEvent feed flagNotify events];
        (split; [done|]); (split; [done|]); exists [EvGetChannelURL name];
        (split; [by repeat constructor|]);
        [done | eexists; by rewrite <- app_assoc].
    + destruct (fetchFeed (events w) name url);
        cbn [fst snd logEvent feed flagNotify events];
        (split; [done|]); (split; [done|]); exists [EvFetch name url];
        (split; [by repeat constructor|]);
        [done | eexists; by rewrite <- app_assoc].
  - intros at_ w channelName fetched.
    destruct at_ as [rd|name|name url|name fetched']; cbn [handleAdd];
      unfold getChannelURL, fetch.
    + destruct rd as [name|]; [destruct (localDb.get name w)|]; discriminate.
    + destruct (resolveURL (events w) name); discriminate.
    + destruct (fetchFeed (events w) name url) as [fetched'|] eqn:Hf;
        [|discriminate].
      intros [= <- <-]. by exists url.
    + rewrite (add_pair name fetched' w).
      destruct (fst (localDb.add name fetched' w)); discriminate.
  - intros at_ w channelName channelURL.
    destruct at_ as [rd|name|name url|name fetched']; cbn [handleAdd];
      unfold getChannelURL, fetch.
    + destruct rd as [name|]; [destruct (localDb.get name w)|]; discriminate.
    + destruct (resolveURL (events w) name) as [url|] eqn:Hu; [|discriminate].
      by intros [= <- <-].
    + destruct (fetchFeed (events w) name url); discriminate.
    + rewrite (add_pair name fetched' w).
      destruct (fst (localDb.add name fetched' w)); discriminate.
  - intros channelName fetched w. cbn [handleAdd].
    rewrite (add_pair channelName fetched w). split; [|split].
    + by destruct (fst (localDb.add channelName fetched w)).
    + intros Hnil.
      destruct (add_cases channelName fetched w)
        as [[_ Hadd]|[(Hin & _)|(Hin & _)]]; [|done|done].
      by rewrite Hadd.
    + intros Hin.
      destruct (add_cases channelName fetched w)
        as [[Hnil _]|[(_ & Hold & Hadd)|(_ & old & latest & rest & Hlook & Hvs
                                           & Hfst & Hfeed)]]; [done| |].
      * rewrite Hadd. cbn [fst snd].
        exists (setVideos fetched (take 7 (Videos fetched))).
        split; [done|]. split.
        { unfold localDb.get. cbn [logEvent setFeed feed].
          by rewrite lookup_insert_eq. }
        split; [done|]. intros old latest rest Hlook Hvs.
        by rewrite (Hold old Hlook) in Hvs.
      * rewrite Hfst. cbn [fst snd]. eexists. split; [done|]. split.
        { unfold localDb.get. cbn [logEvent feed].
          by rewrite Hfeed, lookup_insert_eq. }
        split.
        { intros Hnone. by rewrite (Hnone old Hlook) in Hvs. }
        intros old' latest' rest' Hlook' Hvs'.
        rewrite Hlook in Hlook'. injection Hlook' as <-.
        rewrite Hvs in Hvs'. by injection Hvs' as <- <-.
  - intros rd w. destruct rd as [name|err].
    2:{ eexists [], _, _. split; [reflexivity|]. right. by split. }
    rewrite alone_handleAdd. unfold localDb.get. cbv zeta.
    destruct (feed w !! normalizeName name) as [ch|] eqn:Hlook;
      [eexists [], _, _; split; [reflexivity | right; split; reflexivity]|].
    destruct (resolveURL (events w) name) as [url|err] eqn:Hurl;
      [|eexists [_], _, _; split;
        [cbn [events logEvent]; by rewrite <- app_assoc | right; split; reflexivity]].
    cbn [events logEvent].
    destruct (fetchFeed (events w ++ [EvGetChannelURL name]) name url)
      as [fetched|err] eqn:Hfetch;
      [|eexists [_; _], _, _; split;
        [cbn [events logEvent]; by rewrite <- !app_assoc | right; split; reflexivity]].
    destruct (Videos fetched) as [|v vs] eqn:Hvs.
    + unfold localDb.add. rewrite Hvs. cbn [length Nat.eqb].
      eexists [_; _], _, _. split;
        [cbn [events logEvent]; by rewrite <- !app_assoc | right; split; reflexivity].
    + rewrite add_absent;
        [|by rewrite Hvs|cbn [logEvent feed]; intros; congruence].
      unfold localDb.store. eexists [_; _], _, _. split.
      { cbn [events logEvent setFeed]. by rewrite <- !app_assoc. }
      left. split; [done|]. exists name, url, fetched.
      split_and!; try done.
      unfold setFeed, logEvent. cbn [feed].
      by rewrite lookup_insert_eq, take_min_length, Hvs.
Qed.

(** Two add requests for the same new channel.  One after the other, the
    second is refused as already subscribed.  When the second looks the key
    up before the first has stored, both go on to [add]: both are answered
    with success, the second [add] takes the merge path, notifies of the
    two videos published between the two fetches, and leaves 9 videos in
    the record. *)
Theorem concurrent_adds_reach_the_merge :
  let _ : External :=
    publishing ["7"; "6"; "5"; "4"; "3"; "2"; "1"]
               ["9"; "8"; "7"; "6"; "5"; "4"; "3"] in
  let request := TAdd (AddRead (Ok "chan")) in
  let start := {| now := startWorld; inflight := [] |} in
  let inTurn :=
    run [Start request; Advance 0; Advance 0; Advance 0; Advance 0;
         Start request; Advance 0] start in
  let racing :=
    run [Start request; Start request; Advance 0; Advance 1;
         Advance 0; Advance 0; Advance 0;
         Advance 0; Advance 0; Advance 0] start in
  inflight inTurn = []
  ∧ filter (λ e, isSend e = true) (events (now inTurn))
    = [EvSend success ("subscribed to channel " +:+ DQ +:+ "chan" +:+ DQ);
       EvSend failure ("already subscribed to channel " +:+ DQ +:+ "chan" +:+ DQ)]
  ∧ (λ ch, VideoId <$> Videos ch) <$> feed (now inTurn) !! "chan"
    = Some ["7"; "6"; "5"; "4"; "3"; "2"; "1"]
  ∧ inflight racing = []
  ∧ filter (λ e, isSend e = true) (events (now racing))
    = [EvSend success ("subscribed to channel " +:+ DQ +:+ "chan" +:+ DQ);
       EvSend success ("subscribed to channel " +:+ DQ +:+ "chan" +:+ DQ)]
  ∧ filter (λ e, isNotify e = true) (events (now racing))
    = [EvNotify "chan" (mkVideo "9"); EvNotify "chan" (mkVideo "8")]
  ∧ (λ ch, VideoId <$> Videos ch) <$> feed (now racing) !! "chan"
    = Some ["9"; "8"; "7"; "6"; "5"; "4"; "3"; "2"; "1"].
Proof. by vm_compute. Qed.

(** The rm endpoint answers success whether or not the channel was
    subscribed, and a get request for any name of the same key sent after it
    is answered with the failure "not subscribed to channel '<key>'". *)
Theorem handleRm_then_handleGet (name name' : string) (w : world) :
  normalizeName name' = normalizeName name →
  events (handleGet (Ok name') (handleRm (Ok name) w))
  = events w
    ++ [EvSend success ("unsubscribed from channel " +:+ Quote name);
        EvSend failure ("not subscribed to channel '" +:+ normalizeName name +:+ "'")]
  ∧ feed (handleGet (Ok name') (handleRm (Ok name) w))
    = delete (normalizeName name) (feed w).
Proof.
  intros Hk. unfold handleGet, handleRm, localDb.rm, localDb.get, setFeed, logEvent.
  cbn [feed events fst snd]. rewrite Hk, lookup_delete_eq.
  cbn [feed events Error]. by rewrite <- app_assoc.
Qed.

End EndpointAnswers.

(** * The record [fetch] builds *)

Section FetchFacts.

Lemma Split1_nonempty (sep : ascii) (s : string) : Split1 sep s ≠ [].
Proof.
  induction s as [|a s IH]; simpl; [done|].
  destruct (Ascii.eqb a sep); [done|]. by destruct (Split1 sep s).
Qed.

Lemma hasByte_cons (sep a : ascii) (s : string) :
  hasByte sep (String a s) = Ascii.eqb sep a || hasByte sep s.
Proof. reflexivity. Qed.

Lemma hasByte_append (sep : ascii) (s1 s2 : string) :
  hasByte sep (s1 +:+ s2) = hasByte sep s1 || hasByte sep s2.
Proof.
  induction s1 as [|a s1 IH]; [done|].
  change (String a s1 +:+ s2) with (String a (s1 +:+ s2)).
  by rewrite !hasByte_cons, IH, orb_assoc.
Qed.

(** Without the separator there is one piece, the string itself. *)
Lemma Split1_without (sep : ascii) (s : string) :
  hasByte sep s = false → Split1 sep s = [s].
Proof.
  induction s as [|a s IH]; [done|]. rewrite hasByte_cons.
  intros Hno. apply orb_false_elim in Hno as [Ha Hs].
  simpl. rewrite Ascii.eqb_sym, Ha. by rewrite IH.
Qed.

(** With the separator there are at least two pieces, and no piece holds
    the separator. *)
Lemma Split1_with (sep : ascii) (s : string) :
  hasByte sep s = true → ∃ piece, Split1 sep s !! 1 = Some piece.
Proof.
  induction s as [|a s IH]; [done|]. rewrite hasByte_cons. simpl.
  rewrite (Ascii.eqb_sym sep a). destruct (Ascii.eqb a sep); simpl.
  - intros _. destruct (Split1 sep s) as [|p ps] eqn:E; [|by exists p].
    by apply Split1_nonempty in E.
  - intros Hs. destruct (IH Hs) as [piece Hp].
    destruct (Split1 sep s) as [|p ps]; [done|]. by exists piece.
Qed.

Lemma Split1_pieces (sep : ascii) (s piece : string) :
  piece ∈ Split1 sep s → hasByte sep piece = false.
Proof.
  revert piece. induction s as [|a s IH]; intros piece; simpl.
  - intros Hin. apply list_elem_of_singleton in Hin as ->. done.
  - destruct (Ascii.eqb a sep) eqn:Ea.
    + intros Hin. apply elem_of_cons in Hin as [->|Hin]; [done|]. by apply IH.
    + destruct (Split1 sep s) as [|p ps] eqn:E.
      * intros Hin. apply list_elem_of_singleton in Hin as ->.
        rewrite hasByte_cons, Ascii.eqb_sym, Ea. done.
      * intros Hin. apply elem_of_cons in Hin as [->|Hin].
        -- rewrite hasByte_cons, Ascii.eqb_sym, Ea. apply IH. by left.
        -- apply IH. by right.
Qed.

Lemma fetchRecord_with (chName chURL : string) (parsed : channel) :
  hasByte "="%char chURL = true →
  ∃ channelID,
    Split1 "="%char chURL !! 1 = Some channelID
    ∧ hasByte "="%char channelID = false
    ∧ fetchRecord chName chURL parsed =
        Some {| Name := chName;
                URL := channelURLByIDBase +:+ channelID;
                Videos := take maxFeedSize (Videos parsed) |}.
Proof.
  intros Hyes. unfold fetchRecord.
  destruct (Split1_with _ _ Hyes) as [channelID Hid].
  exists channelID. split; [done|]. split.
  { apply (Split1_pieces "="%char chURL). by eapply list_elem_of_lookup_2. }
  rewrite Hid. destruct (Split1 "=" chURL) as [|p ps] eqn:E; [done|].
  assert (Hcut : (if maxFeedSize <? length (Videos parsed)
                  then take maxFeedSize (Videos parsed) else Videos parsed)
                 = take maxFeedSize (Videos parsed)).
  { destruct (maxFeedSize <? length (Videos parsed)) eqn:El; [done|].
    apply Nat.ltb_ge in El. by rewrite take_ge. }
  rewrite Hcut. reflexivity.
Qed.

(** [fetch] returns a record only for an address that holds "=": the
    record then carries the given name, the channel address built from the
    piece after the first "=", and the first 7 parsed videos.  For an
    address without "=" the index [channelURLElems[1]] is out of range; the
    fallback to the name-based address is never taken. *)
Theorem fetchRecord_result (chName chURL : string) (parsed : channel) :
  (hasByte "="%char chURL = false → fetchRecord chName chURL parsed = None)
  ∧ (hasByte "="%char chURL = true →
       ∃ channelID,
         Split1 "="%char chURL !! 1 = Some channelID
         ∧ hasByte "="%char channelID = false
         ∧ fetchRecord chName chURL parsed =
             Some {| Name := chName;
                     URL := channelURLByIDBase +:+ channelID;
                     Videos := take maxFeedSize (Videos parsed) |}).
Proof.
  split.
  - intros Hno. unfold fetchRecord. by rewrite (Split1_without _ _ Hno).
  - apply fetchRecord_with.
Qed.

Lemma fetchRecord_address (chName chURL : string) (parsed ch : channel) :
  fetchRecord chName chURL parsed = Some ch →
  hasByte "="%char (URL ch) = false.
Proof.
  intros Hf. destruct (hasByte "="%char chURL) eqn:Hhas.
  - destruct (fetchRecord_with chName chURL parsed Hhas)
      as (channelID & _ & Hid & Hrec).
    rewrite Hrec in Hf. injection Hf as <-. cbn [URL].
    by rewrite hasByte_append, Hid.
  - unfold fetchRecord in Hf. by rewrite (Split1_without _ _ Hhas) in Hf.
Qed.

Lemma fetchRecord_without (chName chURL : string) (parsed : channel) :
  hasByte "="%char chURL = false → fetchRecord chName chURL parsed = None.
Proof. intros Hno. unfold fetchRecord. by rewrite (Split1_without _ _ Hno). Qed.

(** The address [fetch] stores in a record is not one [fetch] can use: for
    every record it returns, a second [fetch] on the record's own address,
    as [refresh] does it, runs into the out-of-range index whatever the
    document holds. *)
Theorem fetched_address_cannot_be_refetched (chName chURL : string)
    (parsed ch : channel) :
  fetchRecord chName chURL parsed = Some ch →
  hasByte "="%char (URL ch) = false
  ∧ ∀ parsed', fetchRecord (Name ch) (URL ch) parsed' = None.
Proof.
  intros Hf. pose proof (fetchRecord_address _ _ _ _ Hf) as Hno.
  split; [exact Hno|]. intros parsed'. by apply fetchRecord_without.
Qed.

End FetchFacts.

Section RefreshFacts.
Context `{!External}.

Lemma refreshTask_without_equals (sub : channel) (w : world) :
  fetchAsWritten →
  hasByte "="%char (URL sub) = false →
  refreshTask (RefreshFetch sub) w
  = (logEvent (EvFetch (Name sub) (URL sub)) w, None).
Proof.
  intros Hfetch Hno. unfold refreshTask, fetch.
  destruct (fetchFeed (events w) (Name sub) (URL sub)) as [fetched|err] eqn:Hf;
    [|done].
  destruct (Hfetch _ _ _ _ Hf) as [parsed Hp].
  by rewrite (fetchRecord_without _ _ _ Hno) in Hp.
Qed.

Lemma add_keeps_addresses (c : string) (ch : channel) (w : world) :
  addressesWithoutEquals w →
  hasByte "="%char (URL ch) = false →
  addressesWithoutEquals (snd (localDb.add c ch w)).
Proof.
  intros Hinv Hch k stored.
  destruct (add_cases c ch w)
    as [[_ ->]|[(Hin & _ & ->)|(Hin & old & latest & rest & Hlook & _ & _ & ->)]];
    [apply Hinv| |]; cbn [snd setFeed feed];
    (destruct (decide (k = normalizeName c)) as [->|Hk];
       [rewrite lookup_insert_eq; intros [= <-]
       |rewrite lookup_insert_ne by done; apply Hinv]).
  - exact Hch.
  - exact (Hinv _ _ Hlook).
Qed.

Lemma advance_keeps_addresses (t : task) (w : world) :
  fetchAsWritten → fetchedByFetcher t →
  addressesWithoutEquals w → addressesWithoutEquals (fst (advance t w)).
Proof.
  intros Hfetch Ht Hinv.
  destruct (advance_feed t w) as [Hf|[[c Hf]|(c & ch & Hs & Hf)]];
    intros k stored; rewrite Hf.
  - apply Hinv.
  - intros Hk. apply lookup_delete_Some in Hk as [_ Hk]. by apply (Hinv k).
  - destruct (Ht c ch Hs) as (evs & url & Hfe).
    destruct (Hfetch _ _ _ _ Hfe) as [parsed Hp].
    apply fetchRecord_address in Hp.
    by apply add_keeps_addresses.
Qed.

(** [refresh] cannot update a record the daemon has fetched.  With a
    fetcher that answers as [fetch] is written, every record the tasks put
    in the store has an address without "=", whatever tasks are in flight
    and however they interleave, and the refresh task of any stored record
    ends after its fetch, in whatever state that runs, without touching the
    store or the flag: its [fetch] never returns a record. *)
Theorem refresh_never_updates (ms : list move) (s : system) :
  fetchAsWritten →
  addressesWithoutEquals (now s) →
  Forall fetchedByFetcher (inflight s) →
  addressesWithoutEquals (now (run ms s))
  ∧ ∀ k sub,
      feed (now (run ms s)) !! k = Some sub →
      ∀ w,
        refreshTask (RefreshFetch sub) w
        = (logEvent (EvFetch (Name sub) (URL sub)) w, None).
Proof.
  intros Hfetch Hinv Htasks.
  assert (Hall : addressesWithoutEquals (now (run ms s))).
  { apply (run_keeps addressesWithoutEquals); [|done|done].
    intros t w. by apply advance_keeps_addresses. }
  split; [exact Hall|].
  intros k sub Hsub w. apply refreshTask_without_equals; [done|].
  exact (Hall k sub Hsub).
Qed.

End RefreshFacts.

(** * Start-up and shutdown of the pool *)

Section PoolMore.

Lemma serveAll_open (bounds : list (option listener)) (p : pool) :
  lcClosed p = false →
  length (lc p) + length bounds ≤ listenersSize →
  serveAll bounds p =
    Returns {| lc := lc p ++ omap id bounds; lcClosed := false;
               closedL := closedL p |}.
Proof.
  revert p. induction bounds as [|bound bounds IH]; intros [q cl log] Hopen Hlen;
    simpl in *; subst cl.
  - by rewrite app_nil_r.
  - destruct bound as [l|]; simpl.
    + unfold listenersChan.add, chanSend. cbn [lc lcClosed closedL].
      destruct (listenersSize <? length q + 1) eqn:E.
      { apply Nat.ltb_lt in E. unfold listenersSize in *. lia. }
      destruct (length q <? listenersSize) eqn:E'.
      2:{ apply Nat.ltb_ge in E'. unfold listenersSize in *. lia. }
      rewrite IH; cbn [lc lcClosed closedL]; [|done|rewrite length_app; simpl; lia].
      by rewrite <- app_assoc.
    + rewrite IH; [done | done | simpl; lia].
Qed.

(** Start-up never trips the fail-fast: serving at most 8 endpoints from the
    empty pool returns with exactly the listeners that could be bound, in
    the order of the endpoints, and with nothing closed. *)
Theorem startup_registers_bound_listeners (bounds : list (option listener)) :
  length bounds ≤ listenersSize →
  serveAll bounds emptyPool =
    Returns {| lc := omap id bounds; lcClosed := false; closedL := [] |}.
Proof.
  intros Hlen. by rewrite serveAll_open.
Qed.

Lemma length_omap_id {A} (l : list (option A)) :
  length (omap id l) ≤ length l
  ∧ (length (omap id l) = length l ↔ Forall is_Some l)
  ∧ (length (omap id l) = 0 ↔ Forall (λ o, o = None) l).
Proof.
  induction l as [|[a|] l (IHle & IHall & IHnone)]; simpl;
    try change (list_omap (option A) A id l) with (omap id l).
  - split; [done|]. split; split; by constructor.
  - split; [lia|]. split; split.
    + intros Heq. constructor; [done|]. apply IHall. lia.
    + intros Hall. inversion Hall; subst. f_equal. by apply IHall.
    + done.
    + intros Hall. by inversion Hall.
  - split; [lia|]. split; split.
    + lia.
    + intros Hall. inversion Hall as [|? ? [? Hs]]; done.
    + intros Heq. constructor; [done|]. by apply IHnone.
    + intros Hall. inversion Hall; subst. by apply IHnone.
Qed.

(** Shutdown after start-up.  With the 8 endpoints served from the empty
    pool, [close] returns with every listener closed once, in order, when
    all 8 were bound, and returns at once when none was; when some but not
    all were bound it closes those and then never returns. *)
Theorem shutdown_after_startup (bounds : list (option listener)) :
  length bounds = listenersSize →
  ∃ p,
    serveAll bounds emptyPool = Returns p
    ∧ lc p = omap id bounds
    ∧ (Forall is_Some bounds →
         listenersChan.close p =
           Returns {| lc := []; lcClosed := true; closedL := omap id bounds |})
    ∧ (Forall (λ o, o = None) bounds → listenersChan.close p = Returns p)
    ∧ (¬ Forall is_Some bounds → ¬ Forall (λ o, o = None) bounds →
         listenersChan.close p =
           Blocks {| lc := []; lcClosed := false; closedL := omap id bounds |}).
Proof.
  intros Hlen.
  exists {| lc := omap id bounds; lcClosed := false; closedL := [] |}.
  split; [rewrite serveAll_open; [reflexivity | done | simpl; lia]|].
  destruct (length_omap_id bounds) as (Hle & Hall & Hnone).
  split; [done|]. split; [|split].
  - intros Hsome. apply Hall in Hsome.
    rewrite close_full; [done | done | cbn [lc]; congruence].
  - intros Hno. apply Hnone in Hno. unfold listenersChan.close. cbn [lc].
    by rewrite Hno.
  - intros Hsome Hno. unfold listenersChan.close. cbn [lc].
    destruct (length (omap id bounds) =? 0) eqn:E.
    { apply Nat.eqb_eq in E. by apply Hnone in E. }
    rewrite closeLoop_short; [done| |done]. cbn [lc].
    destruct (decide (length (omap id bounds) = length bounds)) as [Heq|Hne];
      [by apply Hall in Heq | lia].
Qed.

(** [close] may be called twice, registration after it may not: after the
    close of a full pool a second [close] returns at once and closes
    nothing again, and [add] panics on the closed channel. *)
Theorem close_twice_then_add (p : pool) (l : listener) :
  lcClosed p = false →
  length (lc p) = listenersSize →
  ∃ p',
    listenersChan.close p = Returns p'
    ∧ closedL p' = closedL p ++ lc p
    ∧ listenersChan.close p' = Returns p'
    ∧ listenersChan.add l p' = Panics p'.
Proof.
  intros Hopen Hfull. eexists. split; [by apply close_full|]. done.
Qed.

End PoolMore.

(** * The power bytes and the renderings *)

Section FrameMore.

Lemma powLoop_least (fuel : nat) (k len : Z) :
  (1 ≤ k ≤ 62)%Z →
  (63 - k ≤ Z.of_nat fuel)%Z →
  (len ≤ 2 ^ 62)%Z →
  (k = 1 ∨ 2 ^ (k - 1) < len)%Z →
  ∃ pow, powLoop fuel (2 ^ k) k len = Some pow
         ∧ (1 ≤ pow ≤ 62)%Z
         ∧ (len ≤ 2 ^ pow)%Z
         ∧ (pow = 1 ∨ 2 ^ (pow - 1) < len)%Z.
Proof.
  revert k. induction fuel as [|fuel IH]; intros k Hk Hfuel Hlen Hleast; [lia|].
  simpl. destruct (2 ^ k <? len)%Z eqn:E.
  - apply Z.ltb_lt in E.
    assert (k < 62)%Z.
    { destruct (Z.lt_ge_cases k 62) as [|Hge]; [done|].
      assert (2 ^ 62 ≤ 2 ^ k)%Z by (apply Z.pow_le_mono_r; lia). lia. }
    assert (Hpow : (2 ^ k * 2 = 2 ^ (k + 1))%Z) by (rewrite Z.pow_add_r; lia).
    assert (2 ^ (k + 1) ≤ 2 ^ 62)%Z by (apply Z.pow_le_mono_r; lia).
    assert (0 < 2 ^ (k + 1))%Z by (apply Z.pow_pos_nonneg; lia).
    rewrite Hpow, !wrap64_small by lia.
    apply IH; [lia | lia | done |].
    right. by replace (k + 1 - 1)%Z with k by lia.
  - apply Z.ltb_ge in E. exists k. split; [done|]. split; [lia|]. done.
Qed.

Lemma byteOfInt_value (z : Z) :
  (0 ≤ z < 256)%Z → Z.of_N (Byte.to_N (byteOfInt z)) = z.
Proof.
  intros Hz. unfold byteOfInt. rewrite Z.mod_small by lia.
  destruct (Byte.of_N (Z.to_N z)) as [b|] eqn:E.
  - apply Byte.to_of_N in E. simpl. rewrite E. lia.
  - apply Byte.of_N_None_iff in E. lia.
Qed.

(** The two power bytes of a response are the decimal digits of the least
    exponent [pow ≥ 1] with [len(resp) ≤ 2^pow]: a reader that sizes its
    buffer to [2^pow] bytes always has room for the payload, also for the
    payloads of 0 and 1 bytes (exponent 1). *)
Theorem send_power_fits (st : state) (resp : string) :
  (Z.of_nat (String.length resp) ≤ 2 ^ 62)%Z →
  ∃ (pow : Z) (tens ones : byte),
    send st resp = Some (st :: tens :: ones :: list_byte_of_string resp)
    ∧ (1 ≤ pow ≤ 62)%Z
    ∧ Z.of_N (Byte.to_N tens) = (pow / 10)%Z
    ∧ Z.of_N (Byte.to_N ones) = (pow mod 10)%Z
    ∧ (Z.of_nat (String.length resp) ≤ 2 ^ pow)%Z
    ∧ (pow = 1 ∨ 2 ^ (pow - 1) < Z.of_nat (String.length resp))%Z.
Proof.
  intros Hlen. unfold send.
  destruct (powLoop_least 128 1 (Z.of_nat (String.length resp)))
    as (pow & Hpow & Hrange & Hfits & Hleast); [lia | lia | done | by left |].
  change (2 ^ 1)%Z with 2%Z in Hpow. rewrite Hpow.
  exists pow, (byteOfInt (pow ÷ 10)), (byteOfInt (Z.rem pow 10)).
  split; [done|]. split; [done|].
  rewrite Z.quot_div_nonneg, Z.rem_mod_nonneg by lia.
  split; [apply byteOfInt_value|split; [apply byteOfInt_value|done]].
  - split; [apply Z.div_pos; lia|].
    apply Z.div_lt_upper_bound; lia.
  - pose proof (Z.mod_pos_bound pow 10). lia.
Qed.

Lemma append_assoc (a b c : string) : (a +:+ b) +:+ c = a +:+ (b +:+ c).
Proof.
  induction a as [|x a IH]; [done|].
  change (String x ((a +:+ b) +:+ c) = String x (a +:+ (b +:+ c))).
  by rewrite IH.
Qed.

Lemma append_nil_r (s : string) : s +:+ "" = s.
Proof.
  induction s as [|x s IH]; [done|].
  change (String x (s +:+ "") = String x s). by rewrite IH.
Qed.

Lemma length_append (a b : string) :
  String.length (a +:+ b) = String.length a + String.length b.
Proof.
  induction a as [|x a IH]; [done|].
  change (S (String.length (a +:+ b)) = S (String.length a) + String.length b).
  by rewrite IH.
Qed.

Lemma substring_prefix (s t : string) :
  String.substring 0 (String.length s) (s +:+ t) = s.
Proof.
  induction s as [|x s IH]; [by destruct t|].
  change (String x (String.substring 0 (String.length s) (s +:+ t)) = String x s).
  by rewrite IH.
Qed.

Lemma dropLastByte_LF (s : string) : dropLastByte (s +:+ LF) = s.
Proof.
  unfold dropLastByte. rewrite length_append.
  replace (String.length s + String.length LF - 1) with (String.length s)
    by (simpl; lia).
  apply substring_prefix.
Qed.

Lemma video_String_lines (v : video) : video_String v = videoLines v +:+ LF.
Proof. unfold video_String, videoLines. by rewrite !append_assoc. Qed.

Lemma videos_foldl (vs : list video) (acc : string) :
  foldl (λ acc v, acc +:+ video_String v) acc vs
  = acc +:+ match vs with
            | [] => ""
            | _ => Join (videoLines <$> vs) LF +:+ LF
            end.
Proof.
  revert acc. induction vs as [|v vs IH]; intros acc; [by rewrite append_nil_r|].
  cbn [foldl]. rewrite IH, video_String_lines. destruct vs as [|v' vs].
  - simpl. by rewrite append_nil_r.
  - change (Join (videoLines <$> v :: v' :: vs) LF)
      with (videoLines v +:+ LF +:+ Join (videoLines <$> v' :: vs) LF).
    by rewrite !append_assoc.
Qed.

(** [Join] with one more element at the end. *)
Lemma Join_snoc (elems : list string) (e sep : string) :
  Join (elems ++ [e]) sep = foldr (λ x rest, x +:+ sep +:+ rest) "" elems +:+ e.
Proof.
  induction elems as [|x elems IH]; [done|].
  change ((x :: elems) ++ [e]) with (x :: (elems ++ [e])).
  cbn [foldr]. rewrite !append_assoc, <- IH.
  by destruct elems.
Qed.

(** What the [String] methods build, and how a rendering ends.  The videos
    are rendered as their two-line blocks (title, then tab and watch
    address) joined by single newlines: the concatenation of the blocks
    with exactly its final newline dropped, so the rendering of a list that
    is not empty ends with the watch address of its last video, and the
    empty list is rendered as the empty text.  A record is its name, tab
    and address, an empty line, and the rendering of its videos; for a
    record without videos, as [fetch] can return and the fetch endpoint
    then renders, that ends in the two newlines. *)
Theorem renderings_and_their_last_line (c : channel) :
  videos_String (Videos c) = Join (videoLines <$> Videos c) LF
  ∧ channel_String c =
      Name c +:+ LF +:+ TAB +:+ URL c +:+ LF +:+ LF
      +:+ Join (videoLines <$> Videos c) LF
  ∧ (Videos c = [] →
     videos_String (Videos c) = ""
     ∧ channel_String c = Name c +:+ LF +:+ TAB +:+ URL c +:+ LF +:+ LF)
  ∧ (∀ vs last,
       Videos c = vs ++ [last] →
       videos_String (Videos c) +:+ LF
       = foldl (λ acc v, acc +:+ video_String v) "" (Videos c)
       ∧ ∃ front,
           videos_String (Videos c) = front +:+ watchURLStr +:+ VideoId last
           ∧ channel_String c =
               Name c +:+ LF +:+ TAB +:+ URL c +:+ LF +:+ LF
               +:+ front +:+ watchURLStr +:+ VideoId last).
Proof.
  assert (Hv : ∀ vs, videos_String vs = Join (videoLines <$> vs) LF).
  { intros vs. unfold videos_String. rewrite videos_foldl.
    destruct vs as [|v vs]; [done|].
    change ("" +:+ ?s) with s.
    rewrite length_append, dropLastByte_LF.
    by replace (0 <? _ + String.length LF) with true
      by (symmetry; apply Nat.ltb_lt; simpl; lia). }
  split; [apply Hv|]. split; [unfold channel_String; by rewrite Hv|]. split.
  - intros Hnil. unfold channel_String. rewrite Hnil.
    split; [done|]. cbn [videos_String foldl]. by rewrite !append_nil_r.
  - intros vs last Hvs. split.
    + rewrite videos_foldl, Hv, Hvs. by destruct vs.
    + exists (foldr (λ x rest, x +:+ LF +:+ rest) "" (videoLines <$> vs)
              +:+ Title last +:+ LF +:+ TAB).
      assert (Hlast : videos_String (Videos c)
        = (foldr (λ x rest, x +:+ LF +:+ rest) "" (videoLines <$> vs)
           +:+ Title last +:+ LF +:+ TAB) +:+ watchURLStr +:+ VideoId last).
      { rewrite Hv, Hvs, fmap_app. cbn [fmap list_fmap].
        rewrite Join_snoc. unfold videoLines at 2. by rewrite !append_assoc. }
      split; [exact Hlast|]. unfold channel_String. by rewrite Hlast.
Qed.

End FrameMore.

Section AddressFacts.

Lemma Split1_at_separator (sep : ascii) (prefix rest : string) :
  hasByte sep prefix = false →
  Split1 sep (prefix +:+ String sep rest) = prefix :: Split1 sep rest.
Proof.
  induction prefix as [|a prefix IH].
  - intros _. simpl. by rewrite Ascii.eqb_refl.
  - rewrite hasByte_cons. intros Hno. apply orb_false_elim in Hno as [Ha Hp].
    change (String a prefix +:+ String sep rest)
      with (String a (prefix +:+ String sep rest)).
    cbn [Split1]. rewrite Ascii.eqb_sym, Ha. by rewrite IH.
Qed.

(** From the feed address of a channel id [fetch] builds the channel
    address of the same id: the piece after the only "=" of
    [feedURLBase ++ id] is the id. *)
Theorem fetch_of_feed_address (chName id : string) (parsed : channel) :
  hasByte "="%char id = false →
  fetchRecord chName (feedURLBase +:+ id) parsed =
    Some {| Name := chName;
            URL := channelURLByIDBase +:+ id;
            Videos := take maxFeedSize (Videos parsed) |}.
Proof.
  intros Hid.
  assert (Hsplit : Split1 "="%char (feedURLBase +:+ id)
                   = ["https://www.youtube.com/feeds/videos.xml?channel_id"; id]).
  { change (feedURLBase +:+ id)
      with ("https://www.youtube.com/feeds/videos.xml?channel_id"
            +:+ String "="%char id).
    rewrite Split1_at_separator by reflexivity.
    by rewrite (Split1_without _ _ Hid). }
  assert (Hhas : hasByte "="%char (feedURLBase +:+ id) = true).
  { by rewrite hasByte_append. }
  destruct (fetchRecord_with chName (feedURLBase +:+ id) parsed Hhas)
    as (channelID & Hpiece & _ & ->).
  rewrite Hsplit in Hpiece. by injection Hpiece as <-.
Qed.

End AddressFacts.

Section SubsFacts.
Context `{!External}.

Lemma Join_empty (elems : list string) :
  Join elems LF = "" ↔ elems = [] ∨ elems = [""].
Proof.
  destruct elems as [|e [|e' elems]].
  - split; [by left | done].
  - cbn [Join]. split; [intros ->; by right | by intros [|[= ->]]].
  - split; [|by intros [|]]. cbn [Join]. by destruct e.
Qed.

(** The subs endpoint answers success with the names of the stored
    records, one per key, joined by newlines, and with the text
    "no subscriptions" exactly when that is empty: for the empty store, and
    for a store whose only record has the empty name.  It never sends an
    empty payload and never touches the store. *)
Theorem handleSubs_payload (w : world) :
  ∃ chs resp,
    localDb.subs w = Ok chs
    ∧ length chs = size (feed w)
    ∧ (∀ ch, ch ∈ chs ↔ ∃ k, feed w !! k = Some ch)
    ∧ handleSubs w = logEvent (EvSend success resp) w
    ∧ resp = (if decide (Join (Name <$> chs) LF = "") then "no subscriptions"
              else Join (Name <$> chs) LF)
    ∧ resp ≠ ""
    ∧ (Join (Name <$> chs) LF = "" ↔ chs = [] ∨ ∃ ch, chs = [ch] ∧ Name ch = "")
    ∧ (feed w = ∅ → resp = "no subscriptions").
Proof.
  exists (snd <$> map_to_list (feed w)). eexists.
  split; [done|]. split; [by rewrite length_fmap, length_map_to_list|]. split.
  { intros ch. rewrite list_elem_of_fmap. split.
    - intros ([k ch'] & -> & Hin). exists k. by apply elem_of_map_to_list.
    - intros [k Hk]. exists (k, ch). split; [done|]. by apply elem_of_map_to_list. }
  split.
  { unfold handleSubs, localDb.subs. cbv zeta. reflexivity. }
  split.
  { destruct (Join (Name <$> (snd <$> map_to_list (feed w))) LF) as [|a r];
      [done|]. by rewrite decide_False. }
  split.
  { by destruct (String.length (Join (Name <$> (snd <$> map_to_list (feed w))) LF) =? 0)
      eqn:E; [|intros Hempty; rewrite Hempty in E]. }
  split.
  - rewrite Join_empty. split.
    + intros [Hnil|Hone]; [left; by apply fmap_nil_inv in Hnil|right].
      destruct (snd <$> map_to_list (feed w)) as [|ch [|ch' chs]]; [done| |done].
      injection Hone as Hname. by exists ch.
    + intros [->|(ch & -> & Hname)]; [by left|right]. by rewrite <- Hname.
  - intros Hempty. by rewrite Hempty, map_to_list_empty.
Qed.

End SubsFacts.

(** * The further properties at work on concrete inputs *)

Lemma feeding_as_written (ids : list string) : @fetchAsWritten (feeding ids).
Proof.
  intros evs chName chURL ch. cbn [fetchFeed feeding].
  destruct (fetchRecord chName chURL (mkChannel "" ids)) as [built|] eqn:E;
    [|discriminate].
  intros [= <-]. by exists (mkChannel "" ids).
Qed.

Lemma startWorld_is_empty (k : string) (ch : channel) :
  feed startWorld !! k = Some ch → False.
Proof. unfold startWorld. cbn [feed]. by rewrite lookup_empty. Qed.

Lemma add_rm_leave_other_keys_witness :
  "other" ≠ @normalizeName quiet "Chan"
  ∧ feed (snd (@localDb.add quiet "Chan" (mkChannel "Chan" ["2"; "1"])
                 (setFeed (subscribed ["1"])
                    (<["other" := mkChannel "Other" ["9"]]> (feed (subscribed ["1"]))))))
      !! "other"
    = Some (mkChannel "Other" ["9"]).
Proof.
  assert (Hk : "other" ≠ @normalizeName quiet "Chan") by discriminate.
  split; [exact Hk|].
  rewrite (proj1 (@add_rm_leave_other_keys quiet "Chan" (mkChannel "Chan" ["2"; "1"])
                    (setFeed (subscribed ["1"])
                       (<["other" := mkChannel "Other" ["9"]]> (feed (subscribed ["1"]))))
                    "other" Hk)).
  reflexivity.
Defined.

Lemma add_keeps_name_and_address_witness :
  feed (subscribed ["1"]) !! @normalizeName quiet "CHAN" = Some (mkChannel "Chan" ["1"])
  ∧ Videos (mkChannel "Chan" ["1"]) ≠ []
  ∧ ∃ stored,
      feed (snd (@localDb.add quiet "CHAN" (mkChannel "CHAN" ["2"; "1"]) (subscribed ["1"])))
        !! @normalizeName quiet "CHAN" = Some stored
      ∧ Name stored = "Chan"
      ∧ URL stored = "https://www.youtube.com/channel/Chan".
Proof.
  assert (Hold : Videos (mkChannel "Chan" ["1"]) ≠ []) by discriminate.
  split; [reflexivity|]. split; [exact Hold|].
  exact (@add_keeps_name_and_address quiet "CHAN" (mkChannel "CHAN" ["2"; "1"])
           (mkChannel "Chan" ["1"]) (subscribed ["1"]) eq_refl Hold).
Defined.

Lemma add_nothing_new_witness :
  feed (subscribed ["3"; "2"; "1"]) !! @normalizeName quiet "Chan"
    = Some (mkChannel "Chan" ["3"; "2"; "1"])
  ∧ VideoId (mkVideo "3") = VideoId (mkVideo "3")
  ∧ @localDb.add quiet "Chan" (mkChannel "Chan" ["3"; "2"; "1"; "0"])
      (subscribed ["3"; "2"; "1"])
    = (None, subscribed ["3"; "2"; "1"]).
Proof.
  split; [reflexivity|]. split; [reflexivity|].
  exact (proj2 (@add_nothing_new quiet "Chan" (mkChannel "Chan" ["3"; "2"; "1"; "0"])
                  (mkChannel "Chan" ["3"; "2"; "1"]) (mkVideo "3") (mkVideo "3")
                  (subscribed ["3"; "2"; "1"]) eq_refl eq_refl eq_refl eq_refl)
           ltac:(simpl; lia)).
Defined.

Lemma add_again_is_silent_witness :
  Videos (mkChannel "Chan" ["5"; "4"; "3"]) ≠ []
  ∧ events (snd (@localDb.add failsSecond "Chan" (mkChannel "Chan" ["5"; "4"; "3"])
                   (snd (@localDb.add failsSecond "Chan"
                           (mkChannel "Chan" ["5"; "4"; "3"])
                           (subscribed ["3"; "2"; "1"])))))
    = [EvNotify "chan" (mkVideo "5"); EvNotify "chan" (mkVideo "4")].
Proof.
  assert (Hin : Videos (mkChannel "Chan" ["5"; "4"; "3"]) ≠ []) by discriminate.
  split; [exact Hin|].
  destruct (@add_again_is_silent failsSecond "Chan" (mkChannel "Chan" ["5"; "4"; "3"])
              (subscribed ["3"; "2"; "1"]) Hin) as (stored & _ & _ & Hev & _).
  rewrite Hev. reflexivity.
Defined.

Lemma rm_forgets_witness :
  @normalizeName quiet "c h a n" = @normalizeName quiet "Chan"
  ∧ @localDb.get quiet "c h a n" (snd (@localDb.rm quiet "Chan" (subscribed ["2"; "1"])))
    = Err (NotSubscribed "chan")
  ∧ @localDb.get quiet "c h a n"
      (snd (@localDb.add quiet "Chan" (mkChannel "Again" ["9"])
              (snd (@localDb.rm quiet "Chan" (subscribed ["2"; "1"])))))
    = Ok (mkChannel "Again" ["9"]).
Proof.
  pose proof (@rm_forgets quiet "Chan" "c h a n" (mkChannel "Again" ["9"])
                (subscribed ["2"; "1"]) eq_refl) as (_ & Hget & _ & _ & Hadd).
  split; [reflexivity|]. split; [exact Hget|].
  exact (Hadd ltac:(discriminate)).
Defined.

Lemma records_stay_nonempty_witness :
  recordsNonEmpty startWorld
  ∧ ∀ ms tasks,
      recordsNonEmpty
        (now (@run (feeding ["2"; "1"]) ms {| now := startWorld; inflight := tasks |})).
Proof.
  assert (Hstart : recordsNonEmpty startWorld).
  { intros k ch Hk. by apply startWorld_is_empty in Hk. }
  split; [exact Hstart|].
  exact (proj2 (proj2 (@records_stay_nonempty (feeding ["2"; "1"]) startWorld Hstart))).
Defined.

Lemma records_stay_within_13_witness :
  recordsWithin 13 startWorld
  ∧ @fetchAsWritten (feeding ["2"; "1"])
  ∧ (∀ ms,
       recordsWithin 13
         (now (@run (feeding ["2"; "1"]) ms {| now := startWorld; inflight := [] |})))
  ∧ (length (mkChannel "Chan" ["13"; "12"; "11"; "10"; "9"; "8"; "7"]).(Videos) ≤ maxFeedSize
     ∧ (length ∘ Videos) <$>
         (feed (snd (@localDb.add quiet "Chan"
                       (mkChannel "Chan" ["13"; "12"; "11"; "10"; "9"; "8"; "7"])
                       (subscribed ["7"; "6"; "5"; "4"; "3"; "2"; "1"]))) !! "chan")
       = Some 13).
Proof.
  assert (Hstart : recordsWithin 13 startWorld).
  { intros k ch Hk. by apply startWorld_is_empty in Hk. }
  split; [exact Hstart|]. split; [apply feeding_as_written|]. split.
  - intros ms.
    exact (proj2 (@records_stay_within_13 (feeding ["2"; "1"]) startWorld Hstart)
             (feeding_as_written ["2"; "1"]) ms [] (Forall_nil_2 _)).
  - split; [unfold maxFeedSize; simpl; lia | by vm_compute].
Defined.

Lemma no_notification_when_flag_off_witness :
  flagNotify (setFeed {| feed := ∅; flagNotify := false; events := [] |}
                (feed (subscribed ["1"]))) = false
  ∧ flagNotify
      (now (@run (feeding ["3"; "2"; "1"])
              [Start (TSubsFromFile (FileResolve "chan")); Start (TGet (Ok "chan"));
               Advance 0; Advance 1; Advance 0; Advance 0]
              {| now := setFeed {| feed := ∅; flagNotify := false; events := [] |}
                          (feed (subscribed ["1"]));
                 inflight := [] |})) = false.
Proof.
  split; [reflexivity|].
  exact (proj1 (@no_notification_when_flag_off (feeding ["3"; "2"; "1"])
                  [Start (TSubsFromFile (FileResolve "chan")); Start (TGet (Ok "chan"));
                   Advance 0; Advance 1; Advance 0; Advance 0]
                  {| now := setFeed {| feed := ∅; flagNotify := false; events := [] |}
                              (feed (subscribed ["1"]));
                     inflight := [] |} eq_refl)).
Defined.

Lemma handleRm_then_handleGet_witness :
  @normalizeName quiet "neveradded" = @normalizeName quiet "Never Added"
  ∧ events (@handleGet quiet (Ok "neveradded")
              (@handleRm quiet (Ok "Never Added") (subscribed ["1"])))
    = [EvSend success ("unsubscribed from channel " +:+ DQ +:+ "Never Added" +:+ DQ);
       EvSend failure "not subscribed to channel 'neveradded'"].
Proof.
  split; [reflexivity|].
  exact (proj1 (@handleRm_then_handleGet quiet "Never Added" "neveradded"
                  (subscribed ["1"]) eq_refl)).
Defined.

Lemma fetchRecord_result_witness :
  hasByte "="%char "https://www.youtube.com/channel/UCabc" = false
  ∧ fetchRecord "chan" "https://www.youtube.com/channel/UCabc" (mkChannel "" ["1"])
    = None
  ∧ hasByte "="%char "https://example.org/feed?a=UCabc=x" = true
  ∧ ∃ channelID,
      Split1 "="%char "https://example.org/feed?a=UCabc=x" !! 1 = Some channelID
      ∧ hasByte "="%char channelID = false
      ∧ fetchRecord "chan" "https://example.org/feed?a=UCabc=x"
          (mkChannel "" ["9"; "8"; "7"; "6"; "5"; "4"; "3"; "2"; "1"])
        = Some {| Name := "chan";
                  URL := channelURLByIDBase +:+ channelID;
                  Videos := take maxFeedSize
                              (Videos (mkChannel ""
                                 ["9"; "8"; "7"; "6"; "5"; "4"; "3"; "2"; "1"])) |}.
Proof.
  split; [reflexivity|]. split.
  - exact (proj1 (fetchRecord_result "chan" "https://www.youtube.com/channel/UCabc"
                    (mkChannel "" ["1"])) eq_refl).
  - split; [reflexivity|].
    exact (proj2 (fetchRecord_result "chan" "https://example.org/feed?a=UCabc=x"
                    (mkChannel "" ["9"; "8"; "7"; "6"; "5"; "4"; "3"; "2"; "1"]))
             eq_refl).
Defined.

Lemma fetched_address_cannot_be_refetched_witness :
  fetchRecord "chan" (feedURLBase +:+ "UCabc") (mkChannel "" ["2"; "1"])
    = Some {| Name := "chan"; URL := "https://www.youtube.com/channel/UCabc";
              Videos := mkVideo <$> ["2"; "1"] |}
  ∧ ∀ parsed', fetchRecord "chan" "https://www.youtube.com/channel/UCabc" parsed' = None.
Proof.
  assert (Hf : fetchRecord "chan" (feedURLBase +:+ "UCabc") (mkChannel "" ["2"; "1"])
               = Some {| Name := "chan"; URL := "https://www.youtube.com/channel/UCabc";
                         Videos := mkVideo <$> ["2"; "1"] |}) by reflexivity.
  split; [exact Hf|].
  exact (proj2 (fetched_address_cannot_be_refetched _ _ _ _ Hf)).
Defined.

Lemma fetch_of_feed_address_witness :
  hasByte "="%char "UCabcdefghijklmnopqrstuv" = false
  ∧ fetchRecord "chan" (feedURLBase +:+ "UCabcdefghijklmnopqrstuv") (mkChannel "" ["1"])
    = Some {| Name := "chan";
              URL := channelURLByIDBase +:+ "UCabcdefghijklmnopqrstuv";
              Videos := take maxFeedSize (Videos (mkChannel "" ["1"])) |}.
Proof.
  split; [reflexivity|].
  exact (fetch_of_feed_address "chan" "UCabcdefghijklmnopqrstuv" (mkChannel "" ["1"])
           eq_refl).
Defined.

Lemma refresh_never_updates_witness :
  @fetchAsWritten (feeding ["3"; "2"; "1"])
  ∧ addressesWithoutEquals startWorld
  ∧ Forall (@fetchedByFetcher (feeding ["3"; "2"; "1"])) []
  ∧ feed (@alone (feeding ["3"; "2"; "1"]) (TAdd (AddRead (Ok "chan"))) startWorld)
      !! "chan"
    = Some {| Name := "chan"; URL := "https://www.youtube.com/channel/UCchan";
              Videos := mkVideo <$> ["3"; "2"; "1"] |}
  ∧ ∀ w,
      @refreshTask (feeding ["3"; "2"; "1"])
        (RefreshFetch
           {| Name := "chan"; URL := "https://www.youtube.com/channel/UCchan";
              Videos := mkVideo <$> ["3"; "2"; "1"] |}) w
      = (logEvent (EvFetch "chan" "https://www.youtube.com/channel/UCchan") w, None).
Proof.
  assert (Hstart : addressesWithoutEquals startWorld).
  { intros k ch Hk. by apply startWorld_is_empty in Hk. }
  assert (Hsub :
    feed (now (@run (feeding ["3"; "2"; "1"])
                 [Start (TAdd (AddRead (Ok "chan")));
                  Advance 0; Advance 0; Advance 0; Advance 0]
                 {| now := startWorld; inflight := [] |})) !! "chan"
    = Some {| Name := "chan"; URL := "https://www.youtube.com/channel/UCchan";
              Videos := mkVideo <$> ["3"; "2"; "1"] |}) by by vm_compute.
  split; [apply feeding_as_written|]. split; [exact Hstart|].
  split; [by constructor|]. split; [by vm_compute|].
  exact (proj2 (@refresh_never_updates (feeding ["3"; "2"; "1"])
                  [Start (TAdd (AddRead (Ok "chan")));
                   Advance 0; Advance 0; Advance 0; Advance 0]
                  {| now := startWorld; inflight := [] |}
                  (feeding_as_written _) Hstart (Forall_nil_2 _)) "chan" _ Hsub).
Defined.

Lemma startup_registers_bound_listeners_witness :
  length [Some {| Addr := "/tmp/ytfd.fetch.sock" |}; None;
          Some {| Addr := "/tmp/ytfd.get.sock" |}] ≤ listenersSize
  ∧ serveAll [Some {| Addr := "/tmp/ytfd.fetch.sock" |}; None;
              Some {| Addr := "/tmp/ytfd.get.sock" |}] emptyPool
    = Returns (mkPool ["/tmp/ytfd.fetch.sock"; "/tmp/ytfd.get.sock"]).
Proof.
  assert (Hlen : length [Some {| Addr := "/tmp/ytfd.fetch.sock" |}; None;
                         Some {| Addr := "/tmp/ytfd.get.sock" |}] ≤ listenersSize)
    by (unfold listenersSize; simpl; lia).
  split; [exact Hlen|].
  exact (startup_registers_bound_listeners _ Hlen).
Defined.

Lemma shutdown_after_startup_witness :
  length (Some {| Addr := "fetch" |} :: None :: replicate 6 (Some {| Addr := "x" |}))
    = listenersSize
  ∧ ∃ p,
      serveAll (Some {| Addr := "fetch" |} :: None :: replicate 6 (Some {| Addr := "x" |}))
        emptyPool = Returns p
      ∧ listenersChan.close p =
          Blocks {| lc := []; lcClosed := false;
                    closedL := {| Addr := "fetch" |} :: replicate 6 {| Addr := "x" |} |}.
Proof.
  split; [reflexivity|].
  destruct (shutdown_after_startup
              (Some {| Addr := "fetch" |} :: None :: replicate 6 (Some {| Addr := "x" |}))
              eq_refl) as (p & Hserve & _ & _ & _ & Hblocks).
  exists p. split; [exact Hserve|].
  apply Hblocks.
  - intros Hall. inversion Hall as [|? ? _ Hrest]. inversion Hrest as [|? ? [? Hn] _].
    discriminate.
  - intros Hall. inversion Hall as [|? ? Hn _]. discriminate.
Defined.

Lemma close_twice_then_add_witness :
  length (lc (mkPool ["fetch"; "add"; "get"; "rm"; "refresh"; "search"; "subs"; "health"]))
    = listenersSize
  ∧ ∃ p',
      listenersChan.close
        (mkPool ["fetch"; "add"; "get"; "rm"; "refresh"; "search"; "subs"; "health"])
      = Returns p'
      ∧ listenersChan.close p' = Returns p'
      ∧ listenersChan.add {| Addr := "late" |} p' = Panics p'.
Proof.
  split; [reflexivity|].
  destruct (close_twice_then_add
              (mkPool ["fetch"; "add"; "get"; "rm"; "refresh"; "search"; "subs"; "health"])
              {| Addr := "late" |} eq_refl eq_refl) as (p' & Hc & _ & Hc2 & Hadd).
  exists p'. split; [exact Hc|]. split; [exact Hc2 | exact Hadd].
Defined.

Lemma send_power_fits_witness :
  (Z.of_nat (String.length "subscribed to channel x") ≤ 2 ^ 62)%Z
  ∧ ∃ pow tens ones,
      send success "subscribed to channel x"
      = Some (success :: tens :: ones :: list_byte_of_string "subscribed to channel x")
      ∧ Z.of_N (Byte.to_N tens) = (pow / 10)%Z
      ∧ Z.of_N (Byte.to_N ones) = (pow mod 10)%Z
      ∧ (23 ≤ 2 ^ pow)%Z
      ∧ (pow = 1 ∨ 2 ^ (pow - 1) < 23)%Z.
Proof.
  assert (Hlen : (Z.of_nat (String.length "subscribed to channel x") ≤ 2 ^ 62)%Z)
    by (simpl; lia).
  split; [exact Hlen|].
  destruct (send_power_fits success "subscribed to channel x" Hlen)
    as (pow & tens & ones & Hsend & _ & Ht & Ho & Hfit & Hleast).
  exists pow, tens, ones. split; [exact Hsend|]. split; [exact Ht|].
  split; [exact Ho|]. split; [exact Hfit | exact Hleast].
Defined.

Lemma handleSubs_payload_witness :
  feed startWorld = ∅
  ∧ ∃ resp, handleSubs startWorld = logEvent (EvSend success resp) startWorld
            ∧ resp = "no subscriptions".
Proof.
  split; [reflexivity|].
  destruct (handleSubs_payload startWorld)
    as (chs & resp & _ & _ & _ & Hh & _ & _ & _ & Hempty).
  exists resp. split; [exact Hh | exact (Hempty eq_refl)].
Defined.

(** * Keys *)

Section KeyFacts.
Context `{!External}.

Lemma ReplaceAll1_removes (old : ascii) (s : string) :
  hasByte old (ReplaceAll1 old s) = false.
Proof.
  induction s as [|a s IH]; [done|]. simpl.
  destruct (Ascii.eqb a old) eqn:E; [done|].
  by rewrite hasByte_cons, Ascii.eqb_sym, E, IH.
Qed.

Lemma ReplaceAll1_without (old : ascii) (s : string) :
  hasByte old s = false → ReplaceAll1 old s = s.
Proof.
  induction s as [|a s IH]; [done|]. rewrite hasByte_cons.
  intros Hno. apply orb_false_elim in Hno as [Ha Hs].
  simpl. rewrite Ascii.eqb_sym, Ha. by rewrite IH.
Qed.

(** A key holds no space.  And where lower-casing the key gives the key
    again, as it does when [ToLower] returns lower-cased text, a key is its
    own key: looking a channel up by the key that [get]'s error message
    shows finds what looking it up by name finds. *)
Theorem key_is_its_own_key (c : string) (w : world) :
  hasByte " "%char (normalizeName c) = false
  ∧ (ToLower (normalizeName c) = normalizeName c →
     normalizeName (normalizeName c) = normalizeName c
     ∧ localDb.get (normalizeName c) w = localDb.get c w).
Proof.
  split; [apply ReplaceAll1_removes|]. intros Hlower.
  assert (Hkey : normalizeName (normalizeName c) = normalizeName c).
  { unfold normalizeName at 1. rewrite Hlower.
    apply ReplaceAll1_without, ReplaceAll1_removes. }
  split; [exact Hkey|]. unfold localDb.get. by rewrite Hkey.
Qed.

End KeyFacts.

Lemma lowerByte_idempotent (a : ascii) : lowerByte (lowerByte a) = lowerByte a.
Proof. destruct a as [[] [] [] [] [] [] [] []]; reflexivity. Qed.

Lemma lowerByte_space (a : ascii) :
  Ascii.eqb (lowerByte a) " "%char = Ascii.eqb a " "%char.
Proof. destruct a as [[] [] [] [] [] [] [] []]; reflexivity. Qed.

Lemma ToLowerASCII_idempotent (s : string) :
  ToLowerASCII (ToLowerASCII s) = ToLowerASCII s.
Proof.
  induction s as [|a s IH]; [done|].
  cbn [ToLowerASCII]. by rewrite lowerByte_idempotent, IH.
Qed.

Lemma ToLowerASCII_spaces (s : string) :
  ToLowerASCII (ReplaceAll1 " "%char s) = ReplaceAll1 " "%char (ToLowerASCII s).
Proof.
  induction s as [|a s IH]; [done|].
  cbn [ToLowerASCII ReplaceAll1]. rewrite lowerByte_space.
  destruct (Ascii.eqb a " "%char); [done|]. cbn [ToLowerASCII]. by rewrite IH.
Qed.

Lemma normalizeName_lower_ASCII (c : string) :
  @ToLower quiet (@normalizeName quiet c) = @normalizeName quiet c.
Proof.
  unfold normalizeName. cbn [ToLower quiet outside].
  by rewrite ToLowerASCII_spaces, ToLowerASCII_idempotent.
Qed.

Lemma key_is_its_own_key_witness :
  @ToLower quiet (@normalizeName quiet "My Channel") = @normalizeName quiet "My Channel"
  ∧ @normalizeName quiet "My Channel" = "mychannel"
  ∧ @normalizeName quiet (@normalizeName quiet "My Channel")
    = @normalizeName quiet "My Channel"
  ∧ @localDb.get quiet (@normalizeName quiet "My Channel") (subscribed ["1"])
    = @localDb.get quiet "My Channel" (subscribed ["1"]).
Proof.
  split; [apply normalizeName_lower_ASCII|]. split; [reflexivity|].
  exact (proj2 (@key_is_its_own_key quiet "My Channel" (subscribed ["1"]))
           (normalizeName_lower_ASCII "My Channel")).
Defined.
